(** * Design-token synchronisation core: relay, token store, client hooks

    A shallow embedding of the synchronisation code of the design-tokens
    manager: the token store of the app's HTTP server
    ([packages/app/src/server.ts]), the hybrid relay of the dev server
    (the [hybridCommunicationPlugin] of the Vite configuration), the
    [useTokens] hook of the web app, the [WebSocketClient] of the shared
    package and the [HybridClient] of the Figma plugin.

    Conventions.  Mutable fields become record fields of an explicit state;
    a handler is a function from the state before to the state after and
    the list of effects it performed, in program order.  A value that the
    platform supplies ([Date.now()], the outcome of a socket write, the
    result of [JSON.parse]) is an argument of the handler. *)

From stdpp Require Import base option list strings pretty gmap.
From Stdlib Require Import ZArith Lia.

Open Scope string_scope.
Open Scope list_scope.
Open Scope nat_scope.

(** ** Values *)

(** A parsed JSON document.  Numbers are the integers: the synchronisation
    code computes with array lengths and millisecond time stamps only, and
    forwards everything else untouched.  A string is the sequence of its
    code units.  The fields of an object are kept in the order in which the
    engine enumerates them. *)
#[warnings="-register-all"]
Inductive JSON : Type :=
  | JNull
  | JBool (b : bool)
  | JNum (n : Z)
  | JStr (s : string)
  | JArr (items : list JSON)
  | JObj (fields : list (string * JSON)).

(** [packages/shared/src/types.ts] *)
Module Shared.

(** [interface DesignToken] *)
Record DesignToken : Type := mkDesignToken {
  id : string;
  name : string;
  type : string;
  value : JSON;
  description : option string
}.

End Shared.

(** ** Token store: [class TokenHttpServer] of [server.ts] *)
Module Store.
Import Shared.

(** [interface TokenMessage], with the payload each [type] carries. *)
Inductive TokenMessage : Type :=
  | Sync (tokens : list DesignToken)
  | Update (token : DesignToken)
  | Create (token : DesignToken)
  | Delete (tokenId : string).

(** The two private fields.  The callback is an opaque function of the
    caller; the state records whether one is registered, and every call
    of it is an effect that carries the array it was given. *)
Record TokenHttpServer : Type := mkServer {
  tokens : list DesignToken;
  onTokenUpdateCallback : bool
}.

Definition init : TokenHttpServer :=
  {| tokens := []; onTokenUpdateCallback := false |}.

Definition onTokenUpdate (s : TokenHttpServer) : TokenHttpServer :=
  {| tokens := tokens s; onTokenUpdateCallback := true |}.

(** [this.tokens.findIndex(t => t.id === i)]; [None] is the [-1]. *)
Definition findIndex (i : string) (ts : list DesignToken) : option nat :=
  fst <$> list_find (λ t, id t = i) ts.

(** [if (this.onTokenUpdateCallback) this.onTokenUpdateCallback(this.tokens)] *)
Definition notify (cb : bool) (ts : list DesignToken) : list (list DesignToken) :=
  if cb then [ts] else [].

Definition handleTokenMessage (s : TokenHttpServer) (message : TokenMessage)
  : TokenHttpServer * list (list DesignToken) :=
  let cb := onTokenUpdateCallback s in
  let ts :=
    match message with
    | Sync tokens' => tokens'
    | Update token =>
        match findIndex (id token) (tokens s) with
        | Some updateIndex => <[updateIndex := token]> (tokens s)
        | None => tokens s ++ [token]
        end
    | Create token => tokens s ++ [token]
    | Delete tokenId => filter (λ t, id t ≠ tokenId) (tokens s)
    end in
  ({| tokens := ts; onTokenUpdateCallback := cb |}, notify cb ts).

Definition getTokens (s : TokenHttpServer) : list DesignToken := tokens s.

(** The store after a message. *)
Definition apply (s : TokenHttpServer) (message : TokenMessage) : list DesignToken :=
  getTokens (fst (handleTokenMessage s message)).

End Store.

(** ** The language's reading of a JSON value *)
Module Js.

(** A value read from a parsed document: the document's own values and
    [undefined]. *)
Inductive Val : Type :=
  | Undefined
  | J (v : JSON).

Fixpoint own (k : string) (fields : list (string * JSON)) : Val :=
  match fields with
  | [] => Undefined
  | (k', v) :: rest => if decide (k' = k) then J v else own k rest
  end.

(** [v.k], for the property names the code reads ([type], [payload],
    [tokens], [length]): none of them is inherited from a prototype,
    except [length] of a string and of an array.  [None] is the
    [TypeError] of reading a property of [null] or [undefined]. *)
Definition get (v : Val) (k : string) : option Val :=
  match v with
  | Undefined | J JNull => None
  | J (JObj fields) => Some (own k fields)
  | J (JStr s) =>
      Some (if decide (k = "length") then J (JNum (Z.of_nat (String.length s)))
            else Undefined)
  | J (JArr items) =>
      Some (if decide (k = "length") then J (JNum (Z.of_nat (length items)))
            else Undefined)
  | J (JBool _) | J (JNum _) => Some Undefined
  end.

(** [v?.k] *)
Definition get_opt (v : Val) (k : string) : Val :=
  default Undefined (get v k).

(** [ToBoolean] *)
Definition truthy (v : Val) : bool :=
  match v with
  | Undefined | J JNull => false
  | J (JBool b) => b
  | J (JNum n) => negb (n =? 0)%Z
  | J (JStr s) => negb (bool_decide (s = EmptyString))
  | J (JArr _) | J (JObj _) => true
  end.

(** [v === s], for a string literal [s]. *)
Definition strict_equal (v : Val) (s : string) : bool :=
  match v with
  | J (JStr s') => bool_decide (s' = s)
  | _ => false
  end.

(** Whether the object has an own property [k]. *)
Definition has_own (k : string) (fields : list (string * JSON)) : bool :=
  match own k fields with
  | Undefined => false
  | J _ => true
  end.

(** Whether the conversion of a value to a primitive throws a
    [TypeError], as [ToString(v)] in a template and [ToNumber(v)] in a
    comparison do.  A parsed object has [Object.prototype] behind it: its
    [valueOf] gives the object back, so the conversion rests on
    [toString], and an own property of that name, which in a parsed
    document is never a function, hides the inherited one and leaves
    nothing to call.  An array is converted by joining the conversions of
    its elements ([null] gives the empty string), so it throws when one
    of them does. *)
Fixpoint unprintable (v : JSON) : bool :=
  match v with
  | JObj fields => has_own "toString" fields
  | JArr items => existsb unprintable items
  | JNull | JBool _ | JNum _ | JStr _ => false
  end.

Section Coercion.
(** Whether [ToNumber] of a string, or of the string that an array is
    joined to, is a number above zero.  This is the language's numeric
    grammar and rounding, not code of the repository. *)
Variable ToNumber_positive : JSON → bool.

(** [v > 0]; [None] when the conversion of [v] throws.  An object that
    can be converted gives ["[object Object]"], which is not a number. *)
Definition gt_zero (v : Val) : option bool :=
  match v with
  | Undefined | J JNull => Some false
  | J (JBool b) => Some b
  | J (JNum n) => Some (0 <? n)%Z
  | J (JStr s) => Some (ToNumber_positive (JStr s))
  | J (JArr items) =>
      if unprintable (JArr items) then None else Some (ToNumber_positive (JArr items))
  | J (JObj fields) =>
      if unprintable (JObj fields) then None else Some false
  end.

(** [v.length > 0]; [None] when reading [length] throws, or the
    comparison does. *)
Definition length_positive (v : JSON) : option bool :=
  get (J v) "length" ≫= gt_zero.
End Coercion.

(** The own enumerable properties that [{...v}] copies. *)
Definition spread (v : JSON) : list (string * JSON) :=
  match v with
  | JObj fields => fields
  | JArr items => imap (λ i x, (pretty i, x)) items
  | JStr s => imap (λ i c, (pretty i, JStr (String c EmptyString))) (String.list_ascii_of_string s)
  | JNull | JBool _ | JNum _ => []
  end.

(** Defining property [k] in an object literal under construction: an
    existing property keeps its place and takes the new value, a new one
    goes last. *)
Fixpoint define (k : string) (v : JSON) (fields : list (string * JSON))
  : list (string * JSON) :=
  match fields with
  | [] => [(k, v)]
  | (k', v') :: rest =>
      if decide (k' = k) then (k', v) :: rest else (k', v') :: define k v rest
  end.

End Js.

(** ** The relay: [hybridCommunicationPlugin] of the Vite configuration *)
Module Relay.
Import Js.

(** A socket ([ws]) or a response handle ([res]), by identity. *)
Definition Client : Type := nat.

(** A JavaScript [Set], in insertion order. *)
Definition add (c : Client) (set : list Client) : list Client :=
  if decide (c ∈ set) then set else set ++ [c].

Definition delete (c : Client) (set : list Client) : list Client :=
  filter (λ c', c' ≠ c) set.

(** The closure's variables. *)
Record State : Type := mkState {
  sseClients : list Client;
  wsClients : list Client;
  currentTokens : JSON
}.

Definition init : State :=
  {| sseClients := []; wsClients := []; currentTokens := JArr [] |}.

(** What the sockets do while one handler runs: whether [client.write]
    and [client.send] throw, and the [readyState] of a push socket. *)
Record Sockets : Type := mkSockets {
  write_throws : Client → bool;
  readyState : Client → Z;
  send_throws : Client → bool
}.

Definition Headers : Type := list (string * string).

Inductive Effect : Type :=
  | SseWrite (client : Client) (data : JSON)
    (** [client.write(`data: ${JSON.stringify(data)}\n\n`)] *)
  | WsSend (client : Client) (data : JSON)
    (** [client.send(JSON.stringify(data))] *)
  | WriteHead (status : Z) (headers : Headers)
  | End (body : option JSON)
    (** [res.end(JSON.stringify(body))], or [res.end()] *)
  | Next
  | Uncaught.
    (** an exception leaves the handler *)

(** [sseClients.forEach(client => { try { client.write(..) } catch { sseClients.delete(client) } })]:
    [todo] is what is left to visit, [set] the set as it stands. *)
Fixpoint forEach_sse (env : Sockets) (data : JSON) (todo set : list Client)
  : list Client * list Effect :=
  match todo with
  | [] => (set, [])
  | client :: rest =>
      let set' := if write_throws env client then delete client set else set in
      let '(set'', effects) := forEach_sse env data rest set' in
      (set'', SseWrite client data :: effects)
  end.

(** The same for the push sockets, behind [client.readyState === 1]. *)
Fixpoint forEach_ws (env : Sockets) (data : JSON) (todo set : list Client)
  : list Client * list Effect :=
  match todo with
  | [] => (set, [])
  | client :: rest =>
      if (readyState env client =? 1)%Z then
        let set' := if send_throws env client then delete client set else set in
        let '(set'', effects) := forEach_ws env data rest set' in
        (set'', WsSend client data :: effects)
      else forEach_ws env data rest set
  end.

Definition broadcastToAll (env : Sockets) (data : JSON) (st : State)
  : State * list Effect :=
  let '(sse, effects1) := forEach_sse env data (sseClients st) (sseClients st) in
  let '(ws, effects2) := forEach_ws env data (wsClients st) (wsClients st) in
  ({| sseClients := sse; wsClients := ws; currentTokens := currentTokens st |},
   effects1 ++ effects2).

(** The sockets of [env], none of which throws. *)
Definition never_throwing (env : Sockets) : Sockets :=
  {| write_throws := λ _, false; readyState := readyState env; send_throws := λ _, false |}.

(** [{ type: 'initial_sync', tokens: currentTokens, timestamp: Date.now() }] *)
Definition initial_sync (st : State) (now : Z) : JSON :=
  JObj [("type", JStr "initial_sync"); ("tokens", currentTokens st);
        ("timestamp", JNum now)].

(** [{ ...message, source: source, timestamp: Date.now() }] *)
Definition stamp (message : JSON) (source : string) (now : Z) : JSON :=
  JObj (define "timestamp" (JNum now) (define "source" (JStr source) (spread message))).

(** The value of [message.type === 'sync' && message.payload.tokens] when
    it is truthy; [Some None] when it is falsy; [None] when reading it
    throws. *)
Definition sync_tokens (message : JSON) : option (option JSON) :=
  ty ← get (J message) "type";
  if strict_equal ty "sync" then
    payload ← get (J message) "payload";
    tokens ← get payload "tokens";
    Some (match tokens with
          | J t => if truthy tokens then Some t else None
          | Undefined => None
          end)
  else Some None.

(** [if (message.type === 'sync' && message.payload.tokens) currentTokens = message.payload.tokens] *)
Definition store (st : State) (message : JSON) : option State :=
  found ← sync_tokens message;
  Some match found with
       | Some t => {| sseClients := sseClients st; wsClients := wsClients st;
                      currentTokens := t |}
       | None => st
       end.

(** Whether [console.log(`Synced ${currentTokens.length} tokens`)] throws:
    the log is reached when the message's tokens have been stored, and
    its template converts their [length] to a string. *)
Definition log_throws (message : JSON) : bool :=
  match sync_tokens message with
  | Some (Some t) =>
      match get (J t) "length" with
      | Some (J l) => unprintable l
      | Some Undefined | None => false
      end
  | Some None | None => false
  end.

Definition cors_post : Headers :=
  [("Content-Type", "application/json"); ("Access-Control-Allow-Origin", "*");
   ("Access-Control-Allow-Methods", "POST, OPTIONS");
   ("Access-Control-Allow-Headers", "Content-Type")].

(** [set.size] *)
Definition size (set : list Client) : Z := Z.of_nat (length set).

Inductive Event : Type :=
  | WsConnection (ws : Client)
  | WsMessage (ws : Client) (parsed : option JSON)
    (** [JSON.parse(data.toString())]; [None] when it throws *)
  | WsClose (ws : Client)
  | WsError (ws : Client)
  | StreamRequest (method : string) (res : Client)
  | StreamClose (res : Client)
  | StreamError (res : Client)
  | TokensRequest (method : string) (parsed : option JSON).
    (** for a [POST], [JSON.parse(body)] at the end of the body *)

(** The closure's variables together with what its sockets carry: the
    push sockets on which the connection handler has registered the
    [message], [close] and [error] listeners. *)
Record Server : Type := mkServer {
  state : State;
  listening : list Client
}.

Definition start : Server := {| state := init; listening := [] |}.

(** Whether an exception left the handler. *)
Definition uncaught (effects : list Effect) : bool :=
  existsb (λ e, match e with Uncaught => true | _ => false end) effects.

Section Handlers.
Variable ToNumber_positive : JSON → bool.

(** [wss.on('connection', ws => ...)] up to the registration of the
    socket's listeners. *)
Definition on_connection (env : Sockets) (now : Z) (ws : Client) (st : State)
  : State * list Effect :=
  let st' := {| sseClients := sseClients st; wsClients := add ws (wsClients st);
                currentTokens := currentTokens st |} in
  match length_positive ToNumber_positive (currentTokens st) with
  | Some true =>
      (st', WsSend ws (initial_sync st now)
            :: (if send_throws env ws then [Uncaught] else []))
  | Some false => (st', [])
  | None => (st', [Uncaught])
  end.

(** [ws.on('message', data => ...)] *)
Definition on_message (env : Sockets) (now : Z) (parsed : option JSON) (st : State)
  : State * list Effect :=
  match parsed with
  | Some message =>
      match store st message with
      | Some st' => broadcastToAll env (stamp message "websocket" now) st'
      | None => (st, [])
      end
  | None => (st, [])
  end.

(** [ws.on('close', ...)] and [ws.on('error', ...)] *)
Definition on_close (ws : Client) (st : State) : State * list Effect :=
  ({| sseClients := sseClients st; wsClients := delete ws (wsClients st);
      currentTokens := currentTokens st |}, []).

(** The middleware of [/api/stream]. *)
Definition stream (env : Sockets) (now : Z) (method : string) (res : Client) (st : State)
  : State * list Effect :=
  if decide (method = "GET") then
    let head :=
      WriteHead 200 [("Content-Type", "text/event-stream"); ("Cache-Control", "no-cache");
                     ("Connection", "keep-alive"); ("Access-Control-Allow-Origin", "*");
                     ("Access-Control-Allow-Headers", "Cache-Control")] in
    let st' := {| sseClients := add res (sseClients st); wsClients := wsClients st;
                  currentTokens := currentTokens st |} in
    match length_positive ToNumber_positive (currentTokens st) with
    | Some true =>
        if write_throws env res
        then (st, [head; SseWrite res (initial_sync st now); Uncaught])
        else (st', [head; SseWrite res (initial_sync st now)])
    | Some false => (st', [head])
    | None => (st, [head; Uncaught])
    end
  else (st, [Next]).

(** [req.on('close', ...)] and [req.on('error', ...)] of a stream. *)
Definition stream_close (res : Client) (st : State) : State * list Effect :=
  ({| sseClients := delete res (sseClients st); wsClients := wsClients st;
      currentTokens := currentTokens st |}, []).

Definition invalid_json : list Effect :=
  [WriteHead 400 [("Content-Type", "application/json")];
   End (Some (JObj [("error", JStr "Invalid JSON")]))].

(** The middleware of [/api/tokens]. *)
Definition tokens (env : Sockets) (now : Z) (method : string) (parsed : option JSON)
    (st : State) : State * list Effect :=
  if decide (method = "GET") then
    (st, [WriteHead 200 [("Content-Type", "application/json");
                         ("Access-Control-Allow-Origin", "*")];
          End (Some (JObj [("tokens", currentTokens st); ("timestamp", JNum now);
                           ("clients",
                            JObj [("sse", JNum (size (sseClients st)));
                                  ("ws", JNum (size (wsClients st)));
                                  ("total", JNum (size (sseClients st)
                                                  + size (wsClients st)))])]))])
  else if decide (method = "POST") then
    match parsed with
    | Some message =>
        match store st message with
        | Some st' =>
            if log_throws message then (st', invalid_json)
            else
              let '(st'', effects) := broadcastToAll env (stamp message "figma" now) st' in
              (st'', effects ++
                     [WriteHead 200 cors_post;
                      End (Some (JObj [("success", JBool true);
                                       ("message", JStr "Token received and broadcasted");
                                       ("sseClients", JNum (size (sseClients st'')));
                                       ("wsClients", JNum (size (wsClients st'')));
                                       ("totalClients",
                                        JNum (size (sseClients st'')
                                              + size (wsClients st'')))]))])
        | None => (st, invalid_json)
        end
    | None => (st, invalid_json)
    end
  else if decide (method = "OPTIONS") then
    (st, [WriteHead 200 [("Access-Control-Allow-Origin", "*");
                         ("Access-Control-Allow-Methods", "POST, OPTIONS");
                         ("Access-Control-Allow-Headers", "Content-Type")];
          End None])
  else (st, [Next]).

(** A handler of the closure run on the server: the listeners stay. *)
Definition handled (sv : Server) (r : State * list Effect) : Server * list Effect :=
  ({| state := fst r; listening := listening sv |}, snd r).

(** One event of the server's queue.  The connection handler registers
    the socket's listeners last, when no exception has left it; a
    [message], [close] or [error] event of a socket without listeners
    runs nothing.  The listeners of a stream are registered right after
    [sseClients.add(res)], so a request that is in the set has them, and
    for one that is not their [delete] changes nothing. *)
Definition step (env : Sockets) (now : Z) (ev : Event) (sv : Server)
  : Server * list Effect :=
  match ev with
  | WsConnection ws =>
      let '(st', effects) := on_connection env now ws (state sv) in
      ({| state := st';
          listening := if uncaught effects then listening sv else add ws (listening sv) |},
       effects)
  | WsMessage ws parsed =>
      if decide (ws ∈ listening sv)
      then handled sv (on_message env now parsed (state sv))
      else (sv, [])
  | WsClose ws | WsError ws =>
      if decide (ws ∈ listening sv)
      then handled sv (on_close ws (state sv))
      else (sv, [])
  | StreamRequest method res => handled sv (stream env now method res (state sv))
  | StreamClose res | StreamError res => handled sv (stream_close res (state sv))
  | TokensRequest method parsed => handled sv (tokens env now method parsed (state sv))
  end.

(** A run of the queue, each event with the sockets' behaviour and the
    clock at the time it is handled. *)
Fixpoint run (evs : list (Sockets * Z * Event)) (sv : Server) : Server * list Effect :=
  match evs with
  | [] => (sv, [])
  | (env, now, ev) :: rest =>
      let '(sv', effects) := step env now ev sv in
      let '(sv'', effects') := run rest sv' in
      (sv'', effects ++ effects')
  end.
End Handlers.

(** The clients a list of effects sends to, in order. *)
Definition recipients (effects : list Effect) : list Client :=
  omap (λ e, match e with
             | SseWrite c _ | WsSend c _ => Some c
             | _ => None
             end) effects.

(** The messages it sends. *)
Definition sent (effects : list Effect) : list JSON :=
  omap (λ e, match e with
             | SseWrite _ d | WsSend _ d => Some d
             | _ => None
             end) effects.

End Relay.

(** ** The web app's hook: [useTokens] *)
Module UseTokens.
Import Shared (DesignToken).

(** What [typeMapping[k]] can be: one of the mapping's own strings, or a
    member that the object literal inherits from [Object.prototype]. *)
Inductive TypeField : Type :=
  | TokenType (t : string)
  | Inherited (member : string).

(** [TokenWithId]; [_type], [_value] and [_description] are the source's
    [$type], [$value] and [$description]. *)
Record TokenWithId : Type := mkToken {
  id : string;
  name : string;
  _type : TypeField;
  _value : JSON;
  _description : option string
}.

Definition typeMapping : list (string * string) :=
  [("color", "color"); ("typography", "typography"); ("dimension", "dimension");
   ("fontFamily", "fontFamily"); ("fontWeight", "fontWeight"); ("number", "number");
   ("string", "fontFamily"); ("boolean", "number")].

Definition Object_prototype : list string :=
  ["constructor"; "__proto__"; "__defineGetter__"; "__defineSetter__";
   "__lookupGetter__"; "__lookupSetter__"; "hasOwnProperty"; "isPrototypeOf";
   "propertyIsEnumerable"; "toLocaleString"; "toString"; "valueOf"].

Fixpoint assoc (k : string) (table : list (string * string)) : option string :=
  match table with
  | [] => None
  | (k', v) :: rest => if decide (k' = k) then Some v else assoc k rest
  end.

(** [typeMapping[k]]; [None] is [undefined]. *)
Definition typeMapping_at (k : string) : option TypeField :=
  match assoc k typeMapping with
  | Some t => Some (TokenType t)
  | None => if decide (k ∈ Object_prototype) then Some (Inherited k) else None
  end.

Definition convertDesignToken (designToken : DesignToken) : TokenWithId :=
  {| id := Shared.id designToken;
     name := Shared.name designToken;
     _type := default (TokenType "dimension") (typeMapping_at (Shared.type designToken));
     _value := Shared.value designToken;
     _description := Shared.description designToken |}.

(** [s.startsWith(p)] *)
Definition startsWith (s p : string) : bool := String.prefix p s.

(** [s.includes(p)] *)
Fixpoint includes (s p : string) : bool :=
  String.prefix p s ||
  match s with
  | EmptyString => false
  | String _ s' => includes s' p
  end.

Definition isFigmaToken (incomingTokenIds : list string) (t : TokenWithId) : bool :=
  startsWith (id t) "S:" || startsWith (id t) "T:" || startsWith (id t) "debug-"
  || includes (id t) "VariableID:" || bool_decide (id t ∈ incomingTokenIds).

(** The updater given to [setTokens]. *)
Definition merge (convertedTokens prevTokens : list TokenWithId) : list TokenWithId :=
  let incomingTokenIds := id <$> convertedTokens in
  let manualTokens := filter (λ t, isFigmaToken incomingTokenIds t = false) prevTokens in
  manualTokens ++ convertedTokens.

(** The hook between two renders: the three [useState] cells, what React
    keeps for [useCallback] and for [useEffect], and the [lastSyncTime]
    that is in scope where the socket's handlers were created.  A function
    created during a render is named by the number of that render. *)
Record Hook : Type := mkHook {
  tokens : list TokenWithId;
  wsConnected : bool;
  lastSyncTime : Z;
  renders : nat;
  convertDesignToken_memo : option nat;
  effect_dependency : option nat;
  handlers_lastSyncTime : Z
}.

Definition unmounted : Hook :=
  {| tokens := []; wsConnected := false; lastSyncTime := 0; renders := 0;
     convertDesignToken_memo := None; effect_dependency := None;
     handlers_lastSyncTime := 0 |}.

(** One render of the hook.  [useCallback(f, [])] is the [f] of the first
    render ever after.  [useEffect(body, [convertDesignToken])] runs [body]
    after the first render, and after a later one when [convertDesignToken]
    is not the function the render before had; [body] opens the socket and
    creates its handlers, which close over the constants of this render,
    [lastSyncTime] among them. *)
Definition render (h : Hook) : Hook :=
  let convertDesignToken_now := default (renders h) (convertDesignToken_memo h) in
  let body_runs :=
    match effect_dependency h with
    | Some before => negb (before =? convertDesignToken_now)
    | None => true
    end in
  {| tokens := tokens h; wsConnected := wsConnected h; lastSyncTime := lastSyncTime h;
     renders := S (renders h);
     convertDesignToken_memo := Some convertDesignToken_now;
     effect_dependency := Some convertDesignToken_now;
     handlers_lastSyncTime :=
       if body_runs then lastSyncTime h else handlers_lastSyncTime h |}.

(** The first render and its effect. *)
Definition mount : Hook := render unmounted.

(** A parsed message as the hook types it: [message.type], and
    [message.payload?.tokens] as the [DesignToken[]] it is declared to be
    ([None] when it is missing). *)
Record Message : Type := mkMessage {
  type : string;
  payload_tokens : option (list DesignToken)
}.

(** The setters a handler calls. *)
Inductive Effect : Type :=
  | SetLastSyncTime (now : Z)
  | SetTokens (newTokens : list TokenWithId)
  | SetWsConnected (connected : bool)
  | Send_request_tokens
  | SetTimeout_connectWebSocket (delay : Z).

(** [ws.onmessage]; [parsed] is [JSON.parse(event.data)], [now] is
    [Date.now()]. *)
Definition onmessage (now : Z) (parsed : option Message) (h : Hook) : Hook * list Effect :=
  match parsed with
  | Some message =>
      if decide (type message = "sync") then
        match payload_tokens message with
        | Some figmaTokens =>
            let timeSinceLastSync := (now - handlers_lastSyncTime h)%Z in
            if (timeSinceLastSync <? 1000)%Z then (h, [])
            else
              let convertedTokens := convertDesignToken <$> figmaTokens in
              let newTokens := merge convertedTokens (tokens h) in
              ({| tokens := newTokens; wsConnected := wsConnected h;
                  lastSyncTime := now; renders := renders h;
                  convertDesignToken_memo := convertDesignToken_memo h;
                  effect_dependency := effect_dependency h;
                  handlers_lastSyncTime := handlers_lastSyncTime h |},
               [SetLastSyncTime now; SetTokens newTokens])
        | None => (h, [])
        end
      else (h, [])
  | None => (h, [])
  end.

Definition set_connected (b : bool) (h : Hook) : Hook :=
  {| tokens := tokens h; wsConnected := b; lastSyncTime := lastSyncTime h;
     renders := renders h; convertDesignToken_memo := convertDesignToken_memo h;
     effect_dependency := effect_dependency h;
     handlers_lastSyncTime := handlers_lastSyncTime h |}.

Definition onopen (h : Hook) : Hook * list Effect :=
  (set_connected true h, [SetWsConnected true; Send_request_tokens]).

Definition onclose (h : Hook) : Hook * list Effect :=
  (set_connected false h, [SetWsConnected false; SetTimeout_connectWebSocket 3000]).

Definition onerror (h : Hook) : Hook * list Effect :=
  (set_connected false h, [SetWsConnected false]).

Inductive Event : Type :=
  | Open
  | MessageAt (now : Z) (parsed : option Message)
  | Close
  | Error.

Definition handle (ev : Event) (h : Hook) : Hook * list Effect :=
  match ev with
  | Open => onopen h
  | MessageAt now parsed => onmessage now parsed h
  | Close => onclose h
  | Error => onerror h
  end.

(** One event of the socket: its handler, then, when the handler called a
    setter, the render that follows. *)
Definition step (ev : Event) (h : Hook) : Hook * list Effect :=
  let '(h', effects) := handle ev h in
  (match effects with [] => h' | _ :: _ => render h' end, effects).

Fixpoint run (evs : list Event) (h : Hook) : Hook * list Effect :=
  match evs with
  | [] => (h, [])
  | ev :: rest =>
      let '(h', effects) := step ev h in
      let '(h'', effects') := run rest h' in
      (h'', effects ++ effects')
  end.

(** How many times a list of effects replaces the token list. *)
Definition mutations (effects : list Effect) : nat :=
  length (omap (λ e, match e with SetTokens t => Some t | _ => None end) effects).

(** What holds of the hook once it is mounted: [convertDesignToken] is the
    function of the first render, the effect last ran with it, and its
    handlers read the [lastSyncTime] of that render. *)
Definition mounted (h : Hook) : Prop :=
  convertDesignToken_memo h = Some 0 ∧ effect_dependency h = Some 0 ∧
  handlers_lastSyncTime h = 0%Z.

(** *** The classification in the specification's words *)

Definition starts_with (s p : string) : Prop := ∃ rest, s = p +:+ rest.

Definition contains (s p : string) : Prop := ∃ before after, s = before +:+ p +:+ after.

(** A previous token is manual: its id does not start with [S:], [T:] or
    [debug-], does not contain [VariableID:], and is the id of no incoming
    token. *)
Definition manual (incoming : list DesignToken) (t : TokenWithId) : Prop :=
  ¬ starts_with (id t) "S:" ∧ ¬ starts_with (id t) "T:" ∧
  ¬ starts_with (id t) "debug-" ∧ ¬ contains (id t) "VariableID:" ∧
  ∀ d, d ∈ incoming → id t ≠ Shared.id d.

(** An incoming token [d] and the token [t] it becomes in the app: the
    id, the name, the value and the description of [d], and for [$type]
    what [typeMapping[d.type] || 'dimension'] gives, case by case: six
    types map to themselves, [string] to [fontFamily], [boolean] to
    [number]; a name that the mapping inherits from [Object.prototype]
    gives that inherited member, which is truthy; anything else gives
    [dimension]. *)
Definition converted (d : DesignToken) (t : TokenWithId) : Prop :=
  id t = Shared.id d ∧ name t = Shared.name d ∧
  _value t = Shared.value d ∧ _description t = Shared.description d ∧
  (Shared.type d ∈ ["color"; "typography"; "dimension"; "fontFamily"; "fontWeight";
                    "number"] →
   _type t = TokenType (Shared.type d)) ∧
  (Shared.type d = "string" → _type t = TokenType "fontFamily") ∧
  (Shared.type d = "boolean" → _type t = TokenType "number") ∧
  (Shared.type d ∈ ["constructor"; "__proto__"; "__defineGetter__"; "__defineSetter__";
                    "__lookupGetter__"; "__lookupSetter__"; "hasOwnProperty";
                    "isPrototypeOf"; "propertyIsEnumerable"; "toLocaleString";
                    "toString"; "valueOf"] →
   _type t = Inherited (Shared.type d)) ∧
  (Shared.type d ∉ ["color"; "typography"; "dimension"; "fontFamily"; "fontWeight";
                    "number"; "string"; "boolean";
                    "constructor"; "__proto__"; "__defineGetter__"; "__defineSetter__";
                    "__lookupGetter__"; "__lookupSetter__"; "hasOwnProperty";
                    "isPrototypeOf"; "propertyIsEnumerable"; "toLocaleString";
                    "toString"; "valueOf"] →
   _type t = TokenType "dimension").

(** [kept] is [l] without the entries that are not [P], in the order of [l]. *)
Inductive keeps {A} (P : A → Prop) : list A → list A → Prop :=
  | keeps_nil : keeps P [] []
  | keeps_take x l kept : P x → keeps P l kept → keeps P (x :: l) (x :: kept)
  | keeps_drop x l kept : ¬ P x → keeps P l kept → keeps P (x :: l) kept.

End UseTokens.

(** ** The shared package's [WebSocketClient] *)
Module WebSocketClient.

Record Client : Type := mkClient {
  reconnectInterval : Z;
  maxReconnectAttempts : nat;
  reconnectAttempts : nat
}.

Definition new : Client :=
  {| reconnectInterval := 5000; maxReconnectAttempts := 5; reconnectAttempts := 0 |}.

Inductive Effect : Type :=
  | NewWebSocket
  | Resolve
  | Reject
  | SetTimeout_connect (delay : Z).

Definition attemptReconnect (c : Client) : Client * list Effect :=
  if (reconnectAttempts c <? maxReconnectAttempts c)%nat then
    ({| reconnectInterval := reconnectInterval c;
        maxReconnectAttempts := maxReconnectAttempts c;
        reconnectAttempts := S (reconnectAttempts c) |},
     [SetTimeout_connect (reconnectInterval c)])
  else (c, []).

(** The socket's events, and the timer that [attemptReconnect] sets. *)
Inductive Event : Type :=
  | Open
  | Error
  | Close
  | Timer.

Definition step (ev : Event) (c : Client) : Client * list Effect :=
  match ev with
  | Open =>
      ({| reconnectInterval := reconnectInterval c;
          maxReconnectAttempts := maxReconnectAttempts c;
          reconnectAttempts := 0 |}, [Resolve])
  | Error => (c, [Reject])
  | Close => attemptReconnect c
  | Timer => (c, [NewWebSocket])
  end.

(** [k] close events in a row. *)
Fixpoint closes (k : nat) (c : Client) : Client :=
  match k with
  | 0 => c
  | S k' => fst (step Close (closes k' c))
  end.

(** Whether a handler set the reconnection timer. *)
Definition scheduled (effects : list Effect) : bool :=
  existsb (λ e, match e with SetTimeout_connect _ => true | _ => false end) effects.

End WebSocketClient.

(** ** The Figma plugin's [HybridClient] *)
Module HybridClient.
Import Js.

(** [messageHandlers] holds callbacks; the state keeps how many there are
    and names them by index. *)
Record Client : Type := mkClient {
  messageHandlers : nat;
  isConnected : bool
}.

(** What [fetch] and [response.json()] give a poll. *)
Inductive Fetched : Type :=
  | Rejected
  | Response (ok : bool) (json : option JSON).

Inductive Effect : Type :=
  | Handle (handler : nat) (message : JSON)
  | PostMessage (message : JSON)
  | SetTimeout_pollForUpdates (delay : Z).

(** [this.messageHandlers.forEach(handler => handler(message))]: the calls
    made, and whether the loop came to its end. *)
Fixpoint forEach (throws : nat → bool) (message : JSON) (handlers : list nat)
  : list Effect * bool :=
  match handlers with
  | [] => ([], true)
  | handler :: rest =>
      if throws handler then ([Handle handler message], false)
      else let '(effects, completed) := forEach throws message rest in
           (Handle handler message :: effects, completed)
  end.

Section Poll.
Variable ToNumber_positive : JSON → bool.

(** The body of the [try] of [pollForUpdates]; an exception in it, that
    of a comparison that throws among them, ends it. *)
Definition poll_body (throws : nat → bool) (now : Z) (fetched : Fetched) (c : Client)
  : list Effect :=
  match fetched with
  | Response true (Some data) =>
      match get (J data) "tokens" with
      | Some tokens =>
          if truthy tokens then
            match gt_zero ToNumber_positive (get_opt tokens "length") with
            | Some true =>
                let t := match tokens with J t => t | Undefined => JNull end in
                let message :=
                  JObj [("type", JStr "sync"); ("payload", JObj [("tokens", t)])] in
                let '(effects, completed) :=
                  forEach throws message (seq 0 (messageHandlers c)) in
                if completed then
                  effects ++
                  [PostMessage
                     (JObj [("type", JStr "REAL_TIME_UPDATE");
                            ("data", JObj [("type", JStr "sync"); ("tokens", t);
                                           ("source", JStr "polling")]);
                            ("timestamp", JNum now)])]
                else effects
            | Some false | None => []
            end
          else []
      | None => []
      end
  | Response true None | Response false _ | Rejected => []
  end.

Definition pollForUpdates (throws : nat → bool) (now : Z) (fetched : Fetched) (c : Client)
  : list Effect :=
  if isConnected c then
    poll_body throws now fetched c ++ [SetTimeout_pollForUpdates 3000]
  else [].
End Poll.

(** The handler calls among the effects of a tick. *)
Definition dispatched (effects : list Effect) : list (nat * JSON) :=
  omap (λ e, match e with Handle h m => Some (h, m) | _ => None end) effects.

End HybridClient.

(** ** Concrete clients, messages and states *)
Module Samples.
Import Relay.

(** Every socket open, no write fails. *)
Definition healthy : Sockets :=
  {| write_throws := λ _, false; readyState := λ _, 1%Z; send_throws := λ _, false |}.

(** Socket 1 throws on [send]; socket 2 is closing ([readyState] 2). *)
Definition one_throws_one_closing : Sockets :=
  {| write_throws := λ _, false;
     readyState := λ c, if decide (c = 2) then 2%Z else 1%Z;
     send_throws := λ c, bool_decide (c = 1) |}.

(** Socket 1 throws on [send]; every socket is open. *)
Definition one_throws : Sockets :=
  {| write_throws := λ _, false; readyState := λ _, 1%Z;
     send_throws := λ c, bool_decide (c = 1) |}.

Definition token_c1 : JSON :=
  JObj [("id", JStr "c1"); ("name", JStr "Brand/Primary"); ("type", JStr "color");
        ("value", JStr "#0066CC")].

Definition update_c1 : JSON :=
  JObj [("type", JStr "update"); ("payload", JObj [("token", token_c1)])].

Definition sync_c1 : JSON :=
  JObj [("type", JStr "sync"); ("payload", JObj [("tokens", JArr [token_c1])])].

(** An [update] and a [delete] that parse and lack what their type is
    to carry. *)
Definition update_without_payload : JSON := JObj [("type", JStr "update")].

Definition delete_without_tokenId : JSON :=
  JObj [("type", JStr "delete"); ("payload", JObj [])].

(** Tokens that are an object whose [length] cannot be converted to a
    primitive, and the [sync] that carries them. *)
Definition unprintable_tokens : JSON :=
  JObj [("length", JObj [("toString", JNum 0)])].

Definition sync_unprintable : JSON :=
  JObj [("type", JStr "sync"); ("payload", JObj [("tokens", unprintable_tokens)])].

(** Push sockets 1 and 2, stream client 3, nothing stored. *)
Definition two_push_one_stream : State :=
  {| sseClients := [3]; wsClients := [1; 2]; currentTokens := JArr [] |}.

(** The same clients after a sync of [token_c1]. *)
Definition synced : State :=
  {| sseClients := [3]; wsClients := [1; 2]; currentTokens := JArr [token_c1] |}.

(** The relay with those clients, both push sockets with their listeners. *)
Definition serving : Server :=
  {| state := two_push_one_stream; listening := [1; 2] |}.

(** The same relay after a sync of [unprintable_tokens]. *)
Definition holding_unprintable : Server :=
  {| state := {| sseClients := [3]; wsClients := [1; 2];
                 currentTokens := unprintable_tokens |};
     listening := [1; 2] |}.

Definition clock : Z := 1700000000000.

(** The stored tokens of the examples are arrays, whose [length] is a
    number: the coercion of strings is never consulted, and this stands in
    for it. *)
Definition no_coercion : JSON → bool := λ _, false.

(** The token of the specification's scenario, and the [sync] that carries it. *)
Definition design_c1 : Shared.DesignToken :=
  {| Shared.id := "c1"; Shared.name := "Brand/Primary"; Shared.type := "color";
     Shared.value := JStr "#0066CC"; Shared.description := None |}.

Definition design_c2 : Shared.DesignToken :=
  {| Shared.id := "c2"; Shared.name := "Brand/Secondary"; Shared.type := "color";
     Shared.value := JStr "#FF6B6B"; Shared.description := Some "accent" |}.

(** A boolean variable of the design tool, as the plugin extracts it. *)
Definition design_flag : Shared.DesignToken :=
  {| Shared.id := "VariableID:7:1"; Shared.name := "Flags/Dark"; Shared.type := "boolean";
     Shared.value := JBool true;
     Shared.description := Some "boolean variable from Flags" |}.

Definition sync_message : UseTokens.Message :=
  {| UseTokens.type := "sync"; UseTokens.payload_tokens := Some [design_c1] |}.

(** A hook that holds a token made by hand, a style of the design tool,
    and an older copy of [c1]. *)
Definition by_hand : UseTokens.TokenWithId :=
  {| UseTokens.id := "6f1c"; UseTokens.name := "spacing.small";
     UseTokens._type := UseTokens.TokenType "dimension";
     UseTokens._value := JStr "4px"; UseTokens._description := None |}.

Definition a_style : UseTokens.TokenWithId :=
  {| UseTokens.id := "S:1a2b"; UseTokens.name := "Heading";
     UseTokens._type := UseTokens.TokenType "typography";
     UseTokens._value := JStr "Inter"; UseTokens._description := None |}.

Definition old_c1 : UseTokens.TokenWithId :=
  {| UseTokens.id := "c1"; UseTokens.name := "Brand/Primary";
     UseTokens._type := UseTokens.TokenType "color";
     UseTokens._value := JStr "#000000"; UseTokens._description := None |}.

Definition in_use : UseTokens.Hook :=
  {| UseTokens.tokens := [a_style; by_hand; old_c1]; UseTokens.wsConnected := true;
     UseTokens.lastSyncTime := 0; UseTokens.renders := 3;
     UseTokens.convertDesignToken_memo := Some 0; UseTokens.effect_dependency := Some 0;
     UseTokens.handlers_lastSyncTime := 0 |}.

End Samples.

(** ** Messages handled one after another *)
Module StoreRun.
Import Store.

(** The store after [handleTokenMessage]. *)
Definition after (s : TokenHttpServer) (message : TokenMessage) : TokenHttpServer :=
  fst (handleTokenMessage s message).

End StoreRun.

(** ** Events of the relay that bring a client in *)
Module RelayRun.
Import Relay.

(** The event is the connection of [c], as a push socket or as a stream. *)
Definition connects (c : Client) (ev : Event) : Prop :=
  match ev with
  | WsConnection c' | StreamRequest _ c' => c' = c
  | _ => False
  end.

(** What a handler may do to [c] from the state [st]: it writes to [c],
    and has [c] in a set afterwards, only if [c] was in a set of [st] or
    [who] holds (the handler is [c]'s own connection). *)
Definition confined (c : Client) (st : State) (who : Prop) (r : State * list Effect)
  : Prop :=
  (c ∈ recipients (snd r) → c ∈ sseClients st ∨ c ∈ wsClients st ∨ who) ∧
  (c ∈ sseClients (fst r) → c ∈ sseClients st ∨ who) ∧
  (c ∈ wsClients (fst r) → c ∈ wsClients st ∨ who).

(** No event of the run is a connection of [c]. *)
Definition never_connects (c : Client) (evs : list (Sockets * Z * Event)) : Prop :=
  Forall (λ e, ¬ connects c (snd e)) evs.

End RelayRun.

(** ** The other callbacks of [useTokens] *)
Module UseTokensOps.
Import UseTokens.

(** [Omit<TokenWithId, 'id'>] *)
Record Fields : Type := mkFields {
  the_name : string;
  the_type : TypeField;
  the_value : JSON;
  the_description : option string
}.

(** [Partial<Omit<TokenWithId, 'id'>>]: for each property, whether the
    object has it and with what value. *)
Record Updates : Type := mkUpdates {
  new_name : option string;
  new_type : option TypeField;
  new_value : option JSON;
  new_description : option (option string)
}.

(** [{ ...token, id: uuid }]; [uuid] is [crypto.randomUUID()]. *)
Definition addToken (uuid : string) (token : Fields) (prev : list TokenWithId)
  : list TokenWithId :=
  prev ++ [{| id := uuid; name := the_name token; _type := the_type token;
              _value := the_value token; _description := the_description token |}].

(** [{ ...token, ...updates }] *)
Definition patch (updates : Updates) (token : TokenWithId) : TokenWithId :=
  {| id := id token;
     name := default (name token) (new_name updates);
     _type := default (_type token) (new_type updates);
     _value := default (_value token) (new_value updates);
     _description := default (_description token) (new_description updates) |}.

Definition updateToken (i : string) (updates : Updates) (prev : list TokenWithId)
  : list TokenWithId :=
  (λ token, if decide (id token = i) then patch updates token else token) <$> prev.

Definition deleteToken (i : string) (prev : list TokenWithId) : list TokenWithId :=
  filter (λ token, id token ≠ i) prev.

Definition importTokens (newTokens : list TokenWithId) (replaceAll : bool)
    (prev : list TokenWithId) : list TokenWithId :=
  if replaceAll then newTokens else prev ++ newTokens.

Definition clearAllTokens (prev : list TokenWithId) : list TokenWithId := [].

(** What [exportToDTCG] stores under a token's name; [$description] is
    there when the token's description is truthy. *)
Record Exported : Type := mkExported {
  exported_type : TypeField;
  exported_value : JSON;
  exported_description : option string
}.

Definition exported (token : TokenWithId) : Exported :=
  {| exported_type := _type token;
     exported_value := _value token;
     exported_description :=
       match _description token with
       | Some d => if decide (d = EmptyString) then None else Some d
       | None => None
       end |}.

(** [result[k] = v] on an object that began as [{}]: the own properties of
    [result] afterwards.  Under the name [__proto__] the assignment of an
    object sets the prototype and adds no property. *)
Definition assign (k : string) (v : Exported) (result : gmap string Exported)
  : gmap string Exported :=
  if decide (k = "__proto__") then result else <[k := v]> result.

(** The own properties of the object [exportToDTCG] returns. *)
Definition exportToDTCG (tokens : list TokenWithId) : gmap string Exported :=
  foldl (λ result token, assign (name token) (exported token) result) ∅ tokens.

(** [handleTokenSubmit] of the tokens page. *)
Definition handleTokenSubmit (editingToken : option TokenWithId) (uuid : string)
    (tokenData : Fields) (prev : list TokenWithId) : list TokenWithId :=
  match editingToken with
  | Some token =>
      updateToken (id token)
        {| new_name := Some (the_name tokenData); new_type := Some (the_type tokenData);
           new_value := Some (the_value tokenData);
           new_description := Some (the_description tokenData) |} prev
  | None => addToken uuid tokenData prev
  end.

End UseTokensOps.

(** ** The shared package's [WebSocketServer] *)
Module WebSocketServer.
Import Relay.

(** [private clients: Set<WebSocket>] *)
Record Server : Type := mkServer {
  clients : list Client
}.

Inductive Effect : Type :=
  | Send (client : Client) (message : JSON).
    (** [client.send(JSON.stringify(message))] *)

(** [broadcast(message, sender?)]: the sends made, and whether the loop
    came to its end; nothing in the loop catches an exception of [send]. *)
Fixpoint broadcast (env : Sockets) (message : JSON) (sender : option Client)
    (todo : list Client) : list Effect * bool :=
  match todo with
  | [] => ([], true)
  | client :: rest =>
      if bool_decide (Some client ≠ sender) && (readyState env client =? 1)%Z then
        if send_throws env client then ([Send client message], false)
        else
          let '(effects, completed) := broadcast env message sender rest in
          (Send client message :: effects, completed)
      else broadcast env message sender rest
  end.

Inductive Event : Type :=
  | Connection (ws : Client)
  | Message (ws : Client) (parsed : option JSON)
  | Close (ws : Client).

(** The listeners that [setupServer] registers. *)
Definition step (env : Sockets) (ev : Event) (s : Server) : Server * list Effect :=
  match ev with
  | Connection ws => ({| clients := add ws (clients s) |}, [])
  | Message ws (Some message) => (s, fst (broadcast env message (Some ws) (clients s)))
  | Message ws None => (s, [])
  | Close ws => ({| clients := delete ws (clients s) |}, [])
  end.

Definition recipients (effects : list Effect) : list Client :=
  (λ e, match e with Send c _ => c end) <$> effects.

Definition sent (effects : list Effect) : list JSON :=
  (λ e, match e with Send _ m => m end) <$> effects.

End WebSocketServer.

(** ** [WebSocketClient] with its sockets *)
Module WebSocketSession.
Import WebSocketClient.

(** The client's counters, the socket in [this.ws] ([None] is [null]), how
    many sockets [connect] has created, and the [message] listeners that
    [onMessage] has put on sockets: the socket and the callback.  A socket
    is named by its number of creation. *)
Record Session : Type := mkSession {
  client : Client;
  ws : option nat;
  created : nat;
  listeners : list (nat * nat)
}.

Definition fresh : Session :=
  {| client := new; ws := None; created := 0; listeners := [] |}.

Inductive Effect : Type :=
  | Of (e : WebSocketClient.Effect)
  | SocketSend (socket : nat) (message : JSON)
  | SocketClose (socket : nat)
  | Callback (callback : nat) (message : JSON).

(** What the environment decides: the [readyState] of a socket. *)
Record World : Type := mkWorld {
  readyState : nat → Z
}.

Definition with_client (c : Client) (s : Session) : Session :=
  {| client := c; ws := ws s; created := created s; listeners := listeners s |}.

(** [connect()]: [this.ws = new WebSocket(this.url)] *)
Definition connect (s : Session) : Session * list Effect :=
  ({| client := client s; ws := Some (created s); created := S (created s);
      listeners := listeners s |}, [Of NewWebSocket]).

(** [onMessage(callback)] *)
Definition onMessage (callback : nat) (s : Session) : Session :=
  match ws s with
  | Some socket =>
      {| client := client s; ws := ws s; created := created s;
         listeners := listeners s ++ [(socket, callback)] |}
  | None => s
  end.

(** [send(message)] *)
Definition send (w : World) (message : JSON) (s : Session) : list Effect :=
  match ws s with
  | Some socket => if (readyState w socket =? 1)%Z then [SocketSend socket message] else []
  | None => []
  end.

(** [disconnect()] *)
Definition disconnect (s : Session) : Session * list Effect :=
  match ws s with
  | Some socket =>
      ({| client := client s; ws := None; created := created s;
          listeners := listeners s |}, [SocketClose socket])
  | None => (s, [])
  end.

(** A [message] event of a socket: each listener on it parses the data and
    calls its callback, inside its own [try]. *)
Definition deliver (socket : nat) (parsed : option JSON) (s : Session) : list Effect :=
  match parsed with
  | Some message =>
      (λ l, Callback (snd l) message) <$> filter (λ l, fst l = socket) (listeners s)
  | None => []
  end.

Inductive Event : Type :=
  | Connect
  | OnMessage (callback : nat)
  | Send (message : JSON)
  | Disconnect
  | SocketOpened (socket : nat)
  | SocketFailed (socket : nat)
  | SocketClosed (socket : nat)
  | SocketMessage (socket : nat) (parsed : option JSON)
  | TimerFired.

Definition lift (r : Client * list WebSocketClient.Effect) (s : Session)
  : Session * list Effect :=
  (with_client (fst r) s, Of <$> snd r).

Definition step (w : World) (ev : Event) (s : Session) : Session * list Effect :=
  match ev with
  | Connect | TimerFired => connect s
  | OnMessage callback => (onMessage callback s, [])
  | Send message => (s, send w message s)
  | Disconnect => disconnect s
  | SocketOpened _ => lift (WebSocketClient.step Open (client s)) s
  | SocketFailed _ => lift (WebSocketClient.step Error (client s)) s
  | SocketClosed _ => lift (WebSocketClient.step Close (client s)) s
  | SocketMessage socket parsed => (s, deliver socket parsed s)
  end.

Fixpoint run (w : World) (evs : list Event) (s : Session) : Session :=
  match evs with
  | [] => s
  | ev :: rest => run w rest (fst (step w ev s))
  end.

(** The sockets that are named are sockets that were created. *)
Definition bounded (s : Session) : Prop :=
  Forall (λ l, fst l < created s) (listeners s) ∧
  ∀ socket, ws s = Some socket → socket < created s.

End WebSocketSession.

(** ** [HybridClient.send] of the Figma plugin *)
Module HybridSend.
Import Js.

(** What [response.json()] gives: an exception with its message, or the
    parsed body. *)
Inductive Body : Type :=
  | JsonRejects (error_message : string)
  | Json (result : JSON).

(** What [fetch] gives a POST: an exception with its message, or a
    response. *)
Inductive Posted : Type :=
  | FetchRejects (error_message : string)
  | Answer (ok : bool) (status : Z) (statusText : string) (body : Body).

(** The messages [send] posts to the plugin's UI. *)
Inductive UiMessage : Type :=
  | CONNECTION_STATUS (connected : bool) (error : string)
  | SYNC_STATUS (success : bool) (clients : Val) (message : Val).

Section Send.
(** The message of the [TypeError] of reading a property of [null]: the
    engine's wording. *)
Variable TypeError_message : string.

Definition send (posted : Posted) : list UiMessage :=
  match posted with
  | FetchRejects error_message => [CONNECTION_STATUS false error_message]
  | Answer false status statusText _ =>
      [CONNECTION_STATUS false ("HTTP " +:+ pretty status +:+ ": " +:+ statusText)]
  | Answer true _ _ (JsonRejects error_message) => [CONNECTION_STATUS false error_message]
  | Answer true _ _ (Json result) =>
      match get (J result) "clients" with
      | Some clients => [SYNC_STATUS true clients (get_opt (J result) "message")]
      | None => [CONNECTION_STATUS false TypeError_message]
      end
  end.
End Send.

End HybridSend.

(** * Properties *)

Module StoreFacts.
Import Shared Store.

Lemma findIndex_None i ts :
  findIndex i ts = None ↔ Forall (λ t, id t ≠ i) ts.
Proof.
  unfold findIndex. rewrite fmap_None. apply list_find_None.
Qed.

Lemma findIndex_Some i ts k :
  findIndex i ts = Some k ↔
  ∃ t, ts !! k = Some t ∧ id t = i ∧
       ∀ j u, ts !! j = Some u → j < k → id u ≠ i.
Proof.
  unfold findIndex. rewrite fmap_Some. split.
  - intros [[k' t] [Hf ->]]. apply list_find_Some in Hf. simpl. eauto.
  - intros (t & Hk & Hi & Hlt). exists (k, t). split; [|done].
    apply list_find_Some. eauto.
Qed.

Lemma filter_keep_all i ts :
  Forall (λ t, id t ≠ i) ts → filter (λ t, id t ≠ i) ts = ts.
Proof.
  induction 1 as [|t ts Ht _ IH]; [done|].
  rewrite filter_cons_True by done. by rewrite IH.
Qed.

End StoreFacts.

Module StoreClaims.
Import Shared Store StoreFacts Samples.

(** C3.  In every state of the store: a [delete] whose id no stored token
    carries leaves the array as it is; an [update] whose token id no
    stored token carries appends the token; an [update] whose id is
    carried replaces the first entry that carries it, and only that
    entry (same length, every other index unchanged); a [delete] keeps,
    in their order, exactly the entries that do not carry the id. *)
Theorem handleTokenMessage_update_delete (s : TokenHttpServer) :
  (∀ tokenId, Forall (λ t, id t ≠ tokenId) (tokens s) →
     apply s (Delete tokenId) = tokens s) ∧
  (∀ token, Forall (λ t, id t ≠ id token) (tokens s) →
     apply s (Update token) = tokens s ++ [token]) ∧
  (∀ token, Exists (λ t, id t = id token) (tokens s) →
     ∃ k old,
       tokens s !! k = Some old ∧ id old = id token ∧
       (∀ j u, tokens s !! j = Some u → j < k → id u ≠ id token) ∧
       apply s (Update token) !! k = Some token ∧
       length (apply s (Update token)) = length (tokens s) ∧
       (∀ j, j ≠ k → apply s (Update token) !! j = tokens s !! j)) ∧
  (∀ tokenId,
     sublist (apply s (Delete tokenId)) (tokens s) ∧
     (∀ t, t ∈ apply s (Delete tokenId) ↔ t ∈ tokens s ∧ id t ≠ tokenId) ∧
     length (apply s (Delete tokenId))
     + length (filter (λ t, id t = tokenId) (tokens s)) = length (tokens s)).
Proof.
  unfold apply, getTokens, handleTokenMessage; simpl.
  split; [|split; [|split]].
  - intros tokenId H. by apply filter_keep_all.
  - intros token H. apply findIndex_None in H. by rewrite H.
  - intros token H.
    destruct (findIndex (id token) (tokens s)) as [k|] eqn:E.
    + pose proof E as E'. apply findIndex_Some in E' as (old & Hk & Hid & Hlt).
      exists k, old. repeat split; try done.
      * apply list_lookup_insert_eq. by eapply lookup_lt_Some.
      * apply length_insert.
      * intros j Hj. by apply list_lookup_insert_ne.
    + apply findIndex_None in E. exfalso.
      apply Exists_exists in H as (t & Hin & Ht).
      rewrite Forall_forall in E. by apply (E t).
  - intros tokenId. split; [|split].
    + apply sublist_filter.
    + intros t. rewrite list_elem_of_filter. tauto.
    + pose proof (filter_app_complement (λ t, id t = tokenId) (tokens s)) as H.
      apply Permutation_length in H. rewrite length_app in H.
      change (λ x, ¬ id x = tokenId) with (λ x, id x ≠ tokenId) in H. lia.
Qed.

Lemma handleTokenMessage_update_delete_witness :
  apply {| tokens := [design_c1]; onTokenUpdateCallback := false |} (Delete "zz")
  = [design_c1] ∧
  apply {| tokens := [design_c1]; onTokenUpdateCallback := false |} (Update design_c2)
  = [design_c1; design_c2] ∧
  length (apply {| tokens := [design_c1; design_c2]; onTokenUpdateCallback := false |}
                (Update design_c2)) = 2.
Proof.
  pose proof (handleTokenMessage_update_delete
                {| tokens := [design_c1]; onTokenUpdateCallback := false |})
    as (H1 & H2 & _).
  pose proof (handleTokenMessage_update_delete
                {| tokens := [design_c1; design_c2]; onTokenUpdateCallback := false |})
    as (_ & _ & H3 & _).
  split; [apply H1; by repeat constructor|].
  split; [apply H2; by repeat constructor|].
  destruct (H3 design_c2) as (k & old & _ & _ & _ & _ & Hlen & _); [|exact Hlen].
  apply Exists_cons_tl, Exists_cons_hd. reflexivity.
Defined.

End StoreClaims.

Module RelayFacts.
Import Js Relay.

Lemma filter_iff_on {A} (P Q : A → Prop) `{!∀ x, Decision (P x), !∀ x, Decision (Q x)}
    (l : list A) :
  (∀ x, x ∈ l → P x ↔ Q x) → filter P l = filter Q l.
Proof.
  induction l as [|a l IH]; intros Hl; [done|].
  assert (filter P l = filter Q l) as E.
  { apply IH. intros x Hx. apply Hl. by right. }
  destruct (decide (P a)) as [p|np].
  - rewrite !filter_cons_True; [by rewrite E| |done]. apply Hl; [by left|done].
  - rewrite !filter_cons_False; [done| |done]. intros q. apply np, Hl; [by left|done].
Qed.

(** The sets after a loop: what was there, less the visited clients whose
    write threw. *)
Lemma forEach_sse_spec env data todo set :
  forEach_sse env data todo set =
  (filter (λ c, c ∉ filter (λ c, write_throws env c = true) todo) set,
   (λ c, SseWrite c data) <$> todo).
Proof.
  revert set. induction todo as [|c todo IH]; intros set; simpl.
  - f_equal. symmetry. induction set as [|x set IHs]; [done|].
    rewrite filter_cons_True; [by rewrite IHs|]. apply not_elem_of_nil.
  - rewrite IH. f_equal. destruct (write_throws env c) eqn:E.
    + rewrite (filter_cons_True _ c todo) by done. unfold delete.
      rewrite list_filter_filter. apply list_filter_iff. intros x.
      rewrite not_elem_of_cons. tauto.
    + rewrite (filter_cons_False _ c todo); [done|]. by rewrite E.
Qed.

Lemma forEach_ws_spec env data todo set :
  forEach_ws env data todo set =
  (filter (λ c, c ∉ filter (λ c, readyState env c = 1%Z ∧ send_throws env c = true) todo) set,
   (λ c, WsSend c data) <$> filter (λ c, readyState env c = 1%Z) todo).
Proof.
  revert set. induction todo as [|c todo IH]; intros set; simpl.
  - f_equal. symmetry. induction set as [|x set IHs]; [done|].
    rewrite filter_cons_True; [by rewrite IHs|]. apply not_elem_of_nil.
  - destruct (readyState env c =? 1)%Z eqn:R.
    + apply Z.eqb_eq in R. rewrite IH.
      rewrite (filter_cons_True (λ c, readyState env c = 1%Z)) by done.
      f_equal. destruct (send_throws env c) eqn:E.
      * rewrite (filter_cons_True _ c todo) by done. unfold delete.
        rewrite list_filter_filter. apply list_filter_iff. intros x.
        rewrite not_elem_of_cons. tauto.
      * rewrite (filter_cons_False _ c todo); [done|]. rewrite E. by intros [_ ?].
    + apply Z.eqb_neq in R. rewrite IH.
      rewrite (filter_cons_False (λ c, readyState env c = 1%Z)) by done.
      rewrite (filter_cons_False _ c todo); [done|]. by intros [? _].
Qed.

(** A broadcast in one equation: every stream client is written to, every
    open push socket is sent to, a client whose write or send throws leaves
    its set, and the tokens stay. *)
Lemma broadcastToAll_spec env data st :
  broadcastToAll env data st =
  ({| sseClients := filter (λ c, write_throws env c = false) (sseClients st);
      wsClients := filter (λ c, ¬ (readyState env c = 1%Z ∧ send_throws env c = true))
                          (wsClients st);
      currentTokens := currentTokens st |},
   ((λ c, SseWrite c data) <$> sseClients st)
   ++ ((λ c, WsSend c data) <$> filter (λ c, readyState env c = 1%Z) (wsClients st))).
Proof.
  unfold broadcastToAll. rewrite forEach_sse_spec, forEach_ws_spec.
  f_equal. f_equal.
  - apply filter_iff_on. intros c Hc. rewrite list_elem_of_filter.
    destruct (write_throws env c) eqn:E.
    + split; [intros G; exfalso; apply G; by split | done].
    + split; [done | by intros _ [? _]].
  - apply filter_iff_on. intros c Hc. rewrite list_elem_of_filter. tauto.
Qed.

Lemma recipients_app e1 e2 : recipients (e1 ++ e2) = recipients e1 ++ recipients e2.
Proof. apply omap_app. Qed.

Lemma sent_app e1 e2 : sent (e1 ++ e2) = sent e1 ++ sent e2.
Proof. apply omap_app. Qed.

Lemma recipients_sse data l : recipients ((λ c, SseWrite c data) <$> l) = l.
Proof. unfold recipients. induction l as [|c l IH]; csimpl; [done | by f_equal]. Qed.

Lemma recipients_ws data l : recipients ((λ c, WsSend c data) <$> l) = l.
Proof. unfold recipients. induction l as [|c l IH]; csimpl; [done | by f_equal]. Qed.

Lemma sent_sse data l : sent ((λ c, SseWrite c data) <$> l) = replicate (length l) data.
Proof. unfold sent. induction l as [|c l IH]; csimpl; [done | by f_equal]. Qed.

Lemma sent_ws data l : sent ((λ c, WsSend c data) <$> l) = replicate (length l) data.
Proof. unfold sent. induction l as [|c l IH]; csimpl; [done | by f_equal]. Qed.

Lemma recipients_broadcast env data st :
  recipients (snd (broadcastToAll env data st)) =
  sseClients st ++ filter (λ c, readyState env c = 1%Z) (wsClients st).
Proof.
  rewrite broadcastToAll_spec. simpl.
  by rewrite recipients_app, recipients_sse, recipients_ws.
Qed.

Lemma sent_broadcast env data st :
  Forall (λ d, d = data) (sent (snd (broadcastToAll env data st))).
Proof.
  rewrite broadcastToAll_spec. simpl. rewrite sent_app, sent_sse, sent_ws.
  apply Forall_app. split; apply Forall_replicate; done.
Qed.

Lemma filter_all {A} (P : A → Prop) `{!∀ x, Decision (P x)} (l : list A) :
  Forall P l → filter P l = l.
Proof.
  induction 1 as [|x l Hx _ IH]; [done|].
  rewrite filter_cons_True by done. by rewrite IH.
Qed.

(** [store] keeps the client sets. *)
Lemma store_sets st message st' :
  store st message = Some st' →
  sseClients st' = sseClients st ∧ wsClients st' = wsClients st.
Proof.
  unfold store. destruct (sync_tokens message) as [[t|]|]; simpl; intros [= <-]; done.
Qed.

Lemma strict_equal_true v s : strict_equal v s = true → v = J (JStr s).
Proof.
  destruct v as [|[| | |s'| |]]; try done. simpl.
  by intros ->%bool_decide_eq_true.
Qed.

(** When the relay finds tokens to store. *)
Lemma sync_tokens_found message t :
  sync_tokens message = Some (Some t) →
  get (J message) "type" = Some (J (JStr "sync")) ∧
  ∃ payload, get (J message) "payload" = Some payload ∧
             get payload "tokens" = Some (J t) ∧ truthy (J t) = true.
Proof.
  unfold sync_tokens.
  destruct (get (J message) "type") as [ty|] eqn:Ety; [|done].
  cbn [mbind option_bind].
  destruct (strict_equal ty "sync") eqn:S; [|done].
  apply strict_equal_true in S as ->.
  destruct (get (J message) "payload") as [payload|] eqn:Ep; [|done].
  cbn [mbind option_bind].
  destruct (get payload "tokens") as [[|t']|] eqn:Et; try done.
  cbn [mbind option_bind].
  destruct (truthy (J t')) eqn:T; [|done].
  intros [= ->]. split; [done|]. by exists payload.
Qed.

Lemma store_changes st message st' :
  store st message = Some st' →
  currentTokens st' ≠ currentTokens st →
  sync_tokens message = Some (Some (currentTokens st')).
Proof.
  unfold store. destruct (sync_tokens message) as [[t|]|]; [| |done].
  - by intros [= <-].
  - intros [= <-] Hne. by destruct Hne.
Qed.

(** When the log line of a stored sync throws. *)
Lemma log_throws_true message :
  log_throws message = true ↔
  ∃ t l, sync_tokens message = Some (Some t) ∧
         get (J t) "length" = Some (J l) ∧ unprintable l = true.
Proof.
  unfold log_throws. split.
  - destruct (sync_tokens message) as [[t|]|]; try done.
    destruct (get (J t) "length") as [[|l]|] eqn:G; try done.
    intros H. by exists t, l.
  - intros (t & l & -> & -> & H). done.
Qed.

Lemma log_throws_unsynced message :
  sync_tokens message = Some None → log_throws message = false.
Proof. unfold log_throws. by intros ->. Qed.

(** A POST of a message that can be read, in one equation: the tokens are
    stored; then either the log line throws and the answer is 400, or the
    message is broadcast and the answer counts the clients that are left. *)
Lemma tokens_post env now message st st1 :
  store st message = Some st1 →
  tokens env now "POST" (Some message) st =
  if log_throws message then (st1, invalid_json)
  else
    let r := broadcastToAll env (stamp message "figma" now) st1 in
    (fst r,
     snd r ++
     [WriteHead 200 cors_post;
      End (Some (JObj [("success", JBool true);
                       ("message", JStr "Token received and broadcasted");
                       ("sseClients", JNum (size (sseClients (fst r))));
                       ("wsClients", JNum (size (wsClients (fst r))));
                       ("totalClients",
                        JNum (size (sseClients (fst r)) + size (wsClients (fst r))))]))]).
Proof.
  intros E. unfold tokens. rewrite decide_False by done. rewrite decide_True by done.
  rewrite E. destruct (log_throws message); [done|].
  by destruct (broadcastToAll env _ st1).
Qed.

Lemma tokens_post_unread env now message st :
  store st message = None →
  tokens env now "POST" (Some message) st = (st, invalid_json).
Proof.
  intros E. unfold tokens. rewrite decide_False by done. rewrite decide_True by done.
  by rewrite E.
Qed.

End RelayFacts.

Module RelayClaims.
Import Js Relay RelayFacts Samples.

(** C1, as stated, fails: with push sockets 1 and 2 and stream client 3
    connected, an [update] that arrives from socket 1 is sent to 3, to 2
    and to socket 1 itself: three sends, not at most two. *)
Lemma origin_is_sent_its_own_message :
  let r := on_message healthy clock (Some update_c1) two_push_one_stream in
  1 ∈ wsClients two_push_one_stream ∧
  recipients (snd r) = [3; 1; 2] ∧
  ¬ (length (recipients (snd r))
     ≤ length (wsClients two_push_one_stream) + length (sseClients two_push_one_stream) - 1).
Proof.
  split; [by left|]. split; [reflexivity|]. vm_compute. lia.
Qed.

(** C1, amended.  A message that the relay broadcasts, from a push socket
    or from a POST, is stamped and sent to every stream client and to
    every push socket whose [readyState] is 1, the socket it came from
    included: at most N + M sends whatever the origin, and exactly N + M
    when every push socket is open.  Every message that can be read is
    broadcast, but for a POSTed [sync] whose log line throws: it is sent
    to nobody. *)
Theorem broadcast_includes_origin env now message st st1 ws :
  store st message = Some st1 →
  let push := on_message env now (Some message) st in
  let post := tokens env now "POST" (Some message) st in
  let everyone := sseClients st ++ filter (λ c, readyState env c = 1%Z) (wsClients st) in
  recipients (snd push) = everyone ∧
  recipients (snd post) = (if log_throws message then [] else everyone) ∧
  sent (snd push) = replicate (length everyone) (stamp message "websocket" now) ∧
  sent (snd post)
  = (if log_throws message then []
     else replicate (length everyone) (stamp message "figma" now)) ∧
  length everyone ≤ length (wsClients st) + length (sseClients st) ∧
  (Forall (λ c, readyState env c = 1%Z) (wsClients st) →
   length everyone = length (wsClients st) + length (sseClients st)) ∧
  (ws ∈ wsClients st → readyState env ws = 1%Z →
   ws ∈ recipients (snd push) ∧ (log_throws message = false → ws ∈ recipients (snd post))).
Proof.
  intros Hst. pose proof (store_sets _ _ _ Hst) as [Hsse Hws]. cbv zeta.
  rewrite (tokens_post _ _ _ _ _ Hst). unfold on_message. rewrite Hst.
  rewrite !broadcastToAll_spec, Hsse, Hws. cbn [fst snd].
  assert (∀ source,
            recipients (((λ c, SseWrite c (stamp message source now)) <$> sseClients st) ++
                        ((λ c, WsSend c (stamp message source now)) <$>
                           filter (λ c, readyState env c = 1%Z) (wsClients st)))
            = sseClients st ++ filter (λ c, readyState env c = 1%Z) (wsClients st)) as R.
  { intros source. by rewrite recipients_app, recipients_sse, recipients_ws. }
  assert (∀ source,
            sent (((λ c, SseWrite c (stamp message source now)) <$> sseClients st) ++
                  ((λ c, WsSend c (stamp message source now)) <$>
                     filter (λ c, readyState env c = 1%Z) (wsClients st)))
            = replicate (length (sseClients st ++
                                 filter (λ c, readyState env c = 1%Z) (wsClients st)))
                        (stamp message source now)) as S.
  { intros source. by rewrite sent_app, sent_sse, sent_ws, <- replicate_add, length_app. }
  split; [apply R|]. split.
  { destruct (log_throws message); [done|]. cbn [fst snd].
    rewrite recipients_app, R. apply app_nil_r. }
  split; [apply S|]. split.
  { destruct (log_throws message); [done|]. cbn [fst snd].
    rewrite sent_app, S. apply app_nil_r. }
  split.
  { rewrite length_app.
    pose proof (length_filter (λ c, readyState env c = 1%Z) (wsClients st)). lia. }
  split.
  { intros Hopen. rewrite length_app, (filter_all _ _ Hopen). lia. }
  intros Hin Hready.
  assert (ws ∈ sseClients st ++ filter (λ c, readyState env c = 1%Z) (wsClients st)) as Hm.
  { apply elem_of_app. right. by apply list_elem_of_filter. }
  split; [by rewrite R|]. intros ->. cbn [fst snd].
  by rewrite recipients_app, R, app_nil_r.
Qed.

Lemma broadcast_includes_origin_witness :
  let push := on_message healthy clock (Some update_c1) two_push_one_stream in
  let post := tokens healthy clock "POST" (Some update_c1) two_push_one_stream in
  recipients (snd push) = [3; 1; 2] ∧ recipients (snd post) = [3; 1; 2] ∧
  1 ∈ recipients (snd push) ∧
  recipients (snd (tokens healthy clock "POST" (Some sync_unprintable) two_push_one_stream))
  = [].
Proof.
  pose proof (broadcast_includes_origin healthy clock update_c1 two_push_one_stream
                two_push_one_stream 1 eq_refl) as (H1 & H2 & _ & _ & _ & _ & H7).
  pose proof (broadcast_includes_origin healthy clock sync_unprintable two_push_one_stream
                _ 1 eq_refl) as (_ & H2' & _).
  split; [exact H1|]. split; [exact H2|]. split; [|exact H2'].
  destruct H7 as [H7 _]; [by left | reflexivity |]. exact H7.
Defined.

(** C2.  The catch-up does not reach its reader.  A socket that connects
    while a token is stored is sent, alone, a message of the type
    [initial_sync] with the tokens in its own [tokens] field and no
    [payload]; a stream that connects is sent the same.  The hook of the
    web app applies a message only when its type is [sync]: whatever else a
    message of another type carries, the handler sets nothing and the
    tokens on screen stay as they were. *)
Theorem catch_up_is_not_a_sync_message :
  let r := on_connection no_coercion healthy clock 7 synced in
  let r' := stream no_coercion healthy clock "GET" 8 synced in
  snd r = [WsSend 7 (initial_sync synced clock)] ∧
  recipients (snd r') = [8] ∧ sent (snd r') = [initial_sync synced clock] ∧
  get (J (initial_sync synced clock)) "type" = Some (J (JStr "initial_sync")) ∧
  get (J (initial_sync synced clock)) "type" ≠ Some (J (JStr "sync")) ∧
  get (J (initial_sync synced clock)) "payload" = Some Undefined ∧
  get (J (initial_sync synced clock)) "tokens" = Some (J (JArr [token_c1])) ∧
  (∀ now payload_tokens h,
     UseTokens.onmessage now
       (Some {| UseTokens.type := "initial_sync";
                UseTokens.payload_tokens := payload_tokens |}) h
     = (h, [])) ∧
  UseTokens.tokens
    (fst (UseTokens.step
            (UseTokens.MessageAt clock
               (Some {| UseTokens.type := "initial_sync";
                        UseTokens.payload_tokens := None |}))
            UseTokens.mount))
  = [].
Proof. repeat split; done. Qed.

(** C6, as stated, fails for a message that parses and lacks its payload:
    an [update] without a [payload] is not rejected.  Posted, it is stamped
    and sent to every client and answered 200; from a push socket it is
    sent to every client as well. *)
Lemma message_without_payload_is_broadcast :
  let post := tokens healthy clock "POST" (Some update_without_payload) two_push_one_stream in
  let push := on_message healthy clock (Some update_without_payload) two_push_one_stream in
  get (J update_without_payload) "payload" = Some Undefined ∧
  recipients (snd post) = [3; 1; 2] ∧
  recipients (snd push) = [3; 1; 2] ∧
  sent (snd post) = replicate 3 (stamp update_without_payload "figma" clock) ∧
  snd post !! 3 = Some (WriteHead 200 cors_post) ∧
  recipients (snd (tokens healthy clock "POST" (Some delete_without_tokenId)
                     two_push_one_stream)) = [3; 1; 2].
Proof. repeat split; done. Qed.

(** C6, amended.  A POST whose body does not parse is answered [400] with
    [{"error":"Invalid JSON"}]; the tokens and both client sets are as
    before, nothing is sent to any client, and whatever the queue holds
    next is handled as if the request had not been made; a push message
    that does not parse is dropped in the same way, without an answer.
    A message that parses is not examined further: when its [type] is a
    string other than ['sync'], it is stamped and sent to every client
    whatever it carries or lacks. *)
Theorem invalid_json_is_rejected ToNumber_positive env now st rest sv :
  let everyone := sseClients st ++ filter (λ c, readyState env c = 1%Z) (wsClients st) in
  tokens env now "POST" None st
  = (st, [WriteHead 400 [("Content-Type", "application/json")];
          End (Some (JObj [("error", JStr "Invalid JSON")]))]) ∧
  recipients (snd (tokens env now "POST" None st)) = [] ∧
  on_message env now None st = (st, []) ∧
  fst (run ToNumber_positive ((env, now, TokensRequest "POST" None) :: rest) sv)
  = fst (run ToNumber_positive rest sv) ∧
  snd (run ToNumber_positive ((env, now, TokensRequest "POST" None) :: rest) sv)
  = snd (tokens env now "POST" None (state sv)) ++ snd (run ToNumber_positive rest sv) ∧
  (∀ ws, fst (run ToNumber_positive ((env, now, WsMessage ws None) :: rest) sv)
         = fst (run ToNumber_positive rest sv) ∧
         snd (run ToNumber_positive ((env, now, WsMessage ws None) :: rest) sv)
         = snd (run ToNumber_positive rest sv)) ∧
  (∀ message ty,
     get (J message) "type" = Some (J (JStr ty)) → ty ≠ "sync" →
     recipients (snd (tokens env now "POST" (Some message) st)) = everyone ∧
     sent (snd (tokens env now "POST" (Some message) st))
     = replicate (length everyone) (stamp message "figma" now) ∧
     recipients (snd (on_message env now (Some message) st)) = everyone ∧
     sent (snd (on_message env now (Some message) st))
     = replicate (length everyone) (stamp message "websocket" now)).
Proof.
  cbv zeta. split; [done|]. split; [done|]. split; [done|].
  split; [|split; [|split]].
  - destruct sv as [st0 l]. cbn [run step handled state listening fst snd].
    change (tokens env now "POST" None st0) with (st0, invalid_json). cbn [fst snd].
    by destruct (run ToNumber_positive rest _).
  - destruct sv as [st0 l]. cbn [run step handled state listening fst snd].
    change (tokens env now "POST" None st0) with (st0, invalid_json). cbn [fst snd].
    by destruct (run ToNumber_positive rest _).
  - intros ws. destruct sv as [st0 l]. cbn [run step handled state listening].
    destruct (decide (ws ∈ l)); cbn [on_message handled fst snd];
      by destruct (run ToNumber_positive rest _).
  - intros message ty Hty Hne.
    assert (sync_tokens message = Some None) as Hs.
    { unfold sync_tokens. rewrite Hty. cbn [mbind option_bind strict_equal].
      by rewrite bool_decide_eq_false_2. }
    assert (store st message = Some st) as E.
    { unfold store. by rewrite Hs. }
    rewrite (tokens_post _ _ _ _ _ E), (log_throws_unsynced _ Hs).
    unfold on_message. rewrite E, !broadcastToAll_spec. cbn [fst snd].
    rewrite !recipients_app, !sent_app, !recipients_sse, !recipients_ws, !sent_sse, !sent_ws.
    change (recipients [_; _]) with (@nil Client). change (sent [_; _]) with (@nil JSON).
    by rewrite !app_nil_r, <- !replicate_add, !length_app.
Qed.

Lemma invalid_json_is_rejected_witness :
  recipients (snd (tokens healthy clock "POST" (Some update_without_payload)
                     two_push_one_stream)) = [3; 1; 2] ∧
  tokens healthy clock "POST" None two_push_one_stream
  = (two_push_one_stream, invalid_json).
Proof.
  destruct (invalid_json_is_rejected no_coercion healthy clock two_push_one_stream []
              start) as (H1 & _ & _ & _ & _ & _ & H).
  split; [|exact H1].
  destruct (H update_without_payload "update" eq_refl) as [H2 _]; [discriminate|].
  exact H2.
Defined.

(** C8, as stated, fails for a push socket that is not open: when the send
    to socket 1 throws and socket 2 is closing, socket 2 stays in its set
    and is not sent the message. *)
Lemma closing_socket_is_not_sent_to :
  let r := broadcastToAll one_throws_one_closing update_c1 two_push_one_stream in
  send_throws one_throws_one_closing 1 = true ∧
  wsClients (fst r) = [2] ∧
  recipients (snd r) = [3; 1] ∧
  2 ∉ recipients (snd r).
Proof.
  split; [done|]. split; [done|]. split; [done|].
  change (2 ∉ [3; 1]). rewrite !not_elem_of_cons. repeat split; try lia.
  apply not_elem_of_nil.
Qed.

(** C8, amended.  In a broadcast every stream client is written to and
    every push socket whose [readyState] is 1 is sent to, whichever of them
    throw: the calls made are those of a broadcast in which none throws.
    A client leaves its set exactly when the call on it threw; a push
    socket that is not open is passed over, is sent nothing, and stays. *)
Theorem send_failure_is_isolated env data st :
  let r := broadcastToAll env data st in
  (∀ c, c ∈ sseClients st → SseWrite c data ∈ snd r) ∧
  (∀ c, c ∈ wsClients st → readyState env c = 1%Z → WsSend c data ∈ snd r) ∧
  snd r = snd (broadcastToAll (never_throwing env) data st) ∧
  (∀ c, c ∈ sseClients (fst r) ↔ c ∈ sseClients st ∧ write_throws env c = false) ∧
  (∀ c, c ∈ wsClients (fst r) ↔
        c ∈ wsClients st ∧ ¬ (readyState env c = 1%Z ∧ send_throws env c = true)) ∧
  sublist (sseClients (fst r)) (sseClients st) ∧
  sublist (wsClients (fst r)) (wsClients st) ∧
  currentTokens (fst r) = currentTokens st ∧
  (∀ c d, WsSend c d ∈ snd r → c ∈ wsClients st ∧ readyState env c = 1%Z ∧ d = data) ∧
  (∀ c d, SseWrite c d ∈ snd r → c ∈ sseClients st ∧ d = data) ∧
  recipients (snd r) = sseClients st ++ filter (λ c, readyState env c = 1%Z) (wsClients st).
Proof.
  simpl. rewrite recipients_broadcast, !broadcastToAll_spec. simpl.
  split; [|split; [|split; [|split; [|split; [|split; [|split; [|split; [|split; [|split]]]]]]]]].
  - intros c Hc. apply elem_of_app. left. apply list_elem_of_fmap. eauto.
  - intros c Hc Hr. apply elem_of_app. right. apply list_elem_of_fmap.
    exists c. split; [done|]. by apply list_elem_of_filter.
  - done.
  - intros c. rewrite list_elem_of_filter. tauto.
  - intros c. rewrite list_elem_of_filter. tauto.
  - apply sublist_filter.
  - apply sublist_filter.
  - done.
  - intros c d. rewrite elem_of_app, !list_elem_of_fmap.
    intros [(c' & [=] & _) | (c' & [= -> ->] & [Hr Hc]%list_elem_of_filter)]. done.
  - intros c d. rewrite elem_of_app, !list_elem_of_fmap.
    intros [(c' & [= -> ->] & Hc) | (c' & [=] & _)]. done.
  - done.
Qed.

Lemma send_failure_is_isolated_witness :
  WsSend 2 update_c1 ∈ snd (broadcastToAll one_throws update_c1 two_push_one_stream) ∧
  SseWrite 3 update_c1 ∈ snd (broadcastToAll one_throws update_c1 two_push_one_stream) ∧
  ¬ 1 ∈ wsClients (fst (broadcastToAll one_throws update_c1 two_push_one_stream)).
Proof.
  pose proof (send_failure_is_isolated one_throws update_c1 two_push_one_stream)
    as (H1 & H2 & _ & _ & H5 & _).
  split; [apply H2; [right; left | reflexivity]|].
  split; [apply H1; left|].
  intros Hin. apply H5 in Hin as [_ Hn]. apply Hn. split; reflexivity.
Defined.

(** C9, as stated, fails for the client sets: an [update] whose broadcast
    meets a socket that throws removes that socket from its set. *)
Lemma update_broadcast_drops_a_failing_socket :
  let r := on_message one_throws clock (Some update_c1) two_push_one_stream in
  wsClients two_push_one_stream = [1; 2] ∧
  wsClients (fst r) = [2] ∧
  wsClients (fst r) ≠ wsClients two_push_one_stream.
Proof. repeat split; done. Qed.

(** C9, amended.  Handling a message replaces [currentTokens] only when
    its [type] is ['sync'] and its [payload.tokens] is truthy, and then by
    that value.  A message whose [type] is ['update'], ['create'] or
    ['delete'], from a push socket or from a POST, is stamped and broadcast
    and leaves [currentTokens] as it was; the client sets lose the clients
    whose write or send throws during the broadcast and are otherwise
    unchanged; a GET that follows returns the tokens held before. *)
Theorem only_sync_replaces_currentTokens env now message st :
  let push := on_message env now (Some message) st in
  let post := tokens env now "POST" (Some message) st in
  (∀ r, r = push ∨ r = post →
     currentTokens (fst r) ≠ currentTokens st →
     get (J message) "type" = Some (J (JStr "sync")) ∧
     ∃ payload t, get (J message) "payload" = Some payload ∧
                  get payload "tokens" = Some (J t) ∧ truthy (J t) = true ∧
                  currentTokens (fst r) = t) ∧
  (∀ ty, get (J message) "type" = Some (J (JStr ty)) →
     ty ∈ ["update"; "create"; "delete"] →
     (∀ r source, (r = push ∧ source = "websocket") ∨ (r = post ∧ source = "figma") →
        currentTokens (fst r) = currentTokens st ∧
        sent (snd r)
        = replicate (length (sseClients st ++
                             filter (λ c, readyState env c = 1%Z) (wsClients st)))
                    (stamp message source now) ∧
        sseClients (fst r) = filter (λ c, write_throws env c = false) (sseClients st) ∧
        wsClients (fst r)
        = filter (λ c, ¬ (readyState env c = 1%Z ∧ send_throws env c = true)) (wsClients st) ∧
        ((∀ c, write_throws env c = false ∧ send_throws env c = false) →
         sseClients (fst r) = sseClients st ∧ wsClients (fst r) = wsClients st) ∧
        ∀ env' now',
          snd (tokens env' now' "GET" None (fst r)) !! 1
          = Some (End (Some (JObj [("tokens", currentTokens st); ("timestamp", JNum now');
                                   ("clients",
                                    JObj [("sse", JNum (size (sseClients (fst r))));
                                          ("ws", JNum (size (wsClients (fst r))));
                                          ("total", JNum (size (sseClients (fst r))
                                                          + size (wsClients (fst r))))])]))))).
Proof.
  cbv zeta. split.
  - assert (∀ st', store st message = Some st' → currentTokens st' ≠ currentTokens st →
            get (J message) "type" = Some (J (JStr "sync")) ∧
            ∃ payload t, get (J message) "payload" = Some payload ∧
                         get payload "tokens" = Some (J t) ∧ truthy (J t) = true ∧
                         currentTokens st' = t) as Hstore.
    { intros st' Hst Hne.
      destruct (sync_tokens_found _ _ (store_changes _ _ _ Hst Hne))
        as (Hty & payload & Hp & Ht & Htr).
      split; [done|]. by exists payload, (currentTokens st'). }
    intros r [-> | ->]; destruct (store st message) as [st'|] eqn:E.
    + unfold on_message. rewrite E, broadcastToAll_spec. simpl. by apply Hstore.
    + unfold on_message. by rewrite E.
    + rewrite (tokens_post _ _ _ _ _ E). destruct (log_throws message).
      * by apply Hstore.
      * rewrite broadcastToAll_spec. simpl. by apply Hstore.
    + by rewrite (tokens_post_unread _ _ _ _ E).
  - intros ty Hty Hin.
    assert (sync_tokens message = Some None) as Hsync.
    { unfold sync_tokens. rewrite Hty. cbn [mbind option_bind strict_equal].
      rewrite !elem_of_cons in Hin.
      destruct Hin as [-> | [-> | [-> | Hin]]]; try done. by apply elem_of_nil in Hin. }
    assert (store st message = Some st) as E.
    { unfold store. by rewrite Hsync. }
    intros r source [[-> ->] | [-> ->]];
      [unfold on_message; rewrite E
      |rewrite (tokens_post _ _ _ _ _ E), (log_throws_unsynced _ Hsync)];
      rewrite broadcastToAll_spec; cbn [fst snd sseClients wsClients currentTokens].
    + rewrite sent_app, sent_sse, sent_ws, <- replicate_add, length_app.
      repeat split; try done.
      * apply filter_all, Forall_forall. intros c _. apply H.
      * apply filter_all, Forall_forall. intros c _ [_ Hc].
        destruct (H c) as [_ Hs]. congruence.
    + rewrite sent_app, sent_app, sent_sse, sent_ws, <- replicate_add, length_app.
      change (sent [_; _]) with (@nil JSON). rewrite app_nil_r.
      repeat split; try done.
      * apply filter_all, Forall_forall. intros c _. apply H.
      * apply filter_all, Forall_forall. intros c _ [_ Hc].
        destruct (H c) as [_ Hs]. congruence.
Qed.

Lemma only_sync_replaces_currentTokens_witness :
  let push := on_message healthy clock (Some update_c1) two_push_one_stream in
  currentTokens (fst push) = JArr [] ∧
  sseClients (fst push) = [3] ∧ wsClients (fst push) = [1; 2] ∧
  sent (snd push) = replicate 3 (stamp update_c1 "websocket" clock).
Proof.
  pose proof (only_sync_replaces_currentTokens healthy clock update_c1 two_push_one_stream)
    as [_ H].
  specialize (H "update" eq_refl (list_elem_of_here _ _) _ "websocket" (or_introl (conj eq_refl eq_refl))).
  destruct H as (H1 & H2 & _ & _ & H5 & _).
  destruct H5 as [H5 H6]; [done|].
  split; [exact H1|]. split; [exact H5|]. split; [exact H6|]. exact H2.
Defined.

End RelayClaims.

Module UseTokensFacts.
Import UseTokens.

Lemma startsWith_spec s p : startsWith s p = true ↔ starts_with s p.
Proof.
  unfold startsWith, starts_with. revert s.
  induction p as [|a p IH]; intros s; simpl.
  - split; [by exists s | by destruct s].
  - destruct s as [|b s]; simpl.
    + split; [done | by intros [rest ?]].
    + destruct (Ascii.ascii_dec a b) as [->|Hab].
      * rewrite IH. split; intros [rest E]; exists rest.
        -- simpl. by rewrite E.
        -- simpl in E. by injection E.
      * split; [done | intros [rest E]; simpl in E; injection E; congruence].
Qed.

Lemma includes_unfold s p :
  includes s p = startsWith s p || match s with
                                   | EmptyString => false
                                   | String _ s' => includes s' p
                                   end.
Proof. by destruct s. Qed.

Lemma includes_spec s p : includes s p = true ↔ contains s p.
Proof.
  unfold contains. split.
  - induction s as [|a s IH]; rewrite includes_unfold, orb_true_iff.
    + intros [H | H]; [|done]. apply startsWith_spec in H as [rest E].
      by exists EmptyString, rest.
    + intros [H | H].
      * apply startsWith_spec in H as [rest E]. by exists EmptyString, rest.
      * destruct (IH H) as (before & after & E).
        exists (String a before), after. simpl. by rewrite E.
  - intros (before & after & E). revert s E.
    induction before as [|a before IH]; intros s E; simpl in E;
      rewrite includes_unfold, orb_true_iff.
    + left. apply startsWith_spec. by exists after.
    + subst s. right. by apply IH.
Qed.

Lemma convertDesignToken_id d : id (convertDesignToken d) = Shared.id d.
Proof. done. Qed.

Lemma assoc_None k table : k ∉ table.*1 → assoc k table = None.
Proof.
  induction table as [|[k' v] table IH]; [done|]. cbn [assoc fmap list_fmap fst].
  rewrite not_elem_of_cons. intros [Hne Hk].
  rewrite decide_False by done. by apply IH.
Qed.

(** [convertDesignToken] field by field. *)
Lemma convertDesignToken_converted d : converted d (convertDesignToken d).
Proof.
  unfold converted, convertDesignToken. cbn [id name _type _value _description].
  do 4 (split; [done|]). split; [|split; [|split; [|split]]].
  - rewrite !elem_of_cons, elem_of_nil.
    intros [-> | [-> | [-> | [-> | [-> | [-> | []]]]]]]; reflexivity.
  - by intros ->.
  - by intros ->.
  - rewrite !elem_of_cons, elem_of_nil.
    intros [-> | [-> | [-> | [-> | [-> | [-> | [-> | [-> | [-> | [-> | [-> | [-> | []]]]]]]]]]]]];
      reflexivity.
  - intros Hn. unfold typeMapping_at.
    rewrite assoc_None.
    + rewrite decide_False; [done|].
      intros Hin. apply Hn. do 8 right. exact Hin.
    + intros Hin. apply Hn. cbn in Hin.
      rewrite !elem_of_cons, elem_of_nil in Hin. rewrite !elem_of_cons. tauto.
Qed.

Lemma isFigmaToken_manual incoming t :
  isFigmaToken (id <$> (convertDesignToken <$> incoming)) t = false ↔ manual incoming t.
Proof.
  unfold isFigmaToken, manual. rewrite !orb_false_iff.
  rewrite <- !not_true_iff_false, !startsWith_spec, includes_spec.
  rewrite bool_decide_eq_true.
  assert (id t ∈ id <$> (convertDesignToken <$> incoming)
          ↔ ∃ d, d ∈ incoming ∧ id t = Shared.id d) as ->.
  { rewrite <- list_fmap_compose, list_elem_of_fmap.
    split; intros (d & H1 & H2); exists d; split; assumption. }
  split.
  - intros ((((H1 & H2) & H3) & H4) & H5). repeat split; try done.
    intros d Hd E. apply H5. by exists d.
  - intros (H1 & H2 & H3 & H4 & H5). repeat split; try done.
    intros (d & Hd & E). by apply (H5 d).
Qed.

Lemma filter_keeps {A} (P : A → Prop) (b : A → bool) (l : list A) :
  (∀ x, b x = false ↔ P x) → keeps P l (filter (λ x, b x = false) l).
Proof.
  intros Hb. induction l as [|x l IH]; [constructor|].
  destruct (b x) eqn:E.
  - rewrite filter_cons_False by (by rewrite E). apply keeps_drop; [|done].
    rewrite <- Hb. by rewrite E.
  - rewrite filter_cons_True by done. apply keeps_take; [|done]. by apply Hb.
Qed.

(** [keeps] determines what is kept. *)
Lemma keeps_unique {A} (P : A → Prop) (l k1 k2 : list A) :
  keeps P l k1 → keeps P l k2 → k1 = k2.
Proof.
  intros H1. revert k2. induction H1 as [|x l k Hx _ IH|x l k Hx _ IH];
    intros k2 H2; inversion H2; subst; try done.
  - f_equal. by apply IH.
  - by apply IH.
Qed.

Lemma mounted_mount : mounted mount.
Proof. done. Qed.

Lemma mounted_render h : mounted h → mounted (render h).
Proof.
  intros (Hm & Hd & Hl). unfold mounted, render. simpl. rewrite Hm, Hd. done.
Qed.

Lemma mounted_handle ev h : mounted h → mounted (fst (handle ev h)).
Proof.
  intros Hm. destruct ev as [|now [message|]| |]; simpl; try done.
  unfold onmessage. destruct (decide _); [|done].
  destruct (payload_tokens message); [|done].
  by destruct (_ <? _)%Z.
Qed.

Lemma mounted_step ev h : mounted h → mounted (fst (step ev h)).
Proof.
  intros Hm. unfold step. pose proof (mounted_handle ev h Hm) as Hh.
  destruct (handle ev h) as [h' [|e effects]]; simpl in *; [done|].
  by apply mounted_render.
Qed.

Lemma mounted_run evs h : mounted h → mounted (fst (run evs h)).
Proof.
  revert h. induction evs as [|ev evs IH]; intros h Hm; [done|]. simpl.
  pose proof (mounted_step ev h Hm) as Hs.
  destruct (step ev h) as [h' e]. specialize (IH h' Hs).
  by destruct (run evs h') as [h'' e'].
Qed.

End UseTokensFacts.

Module UseTokensClaims.
Import UseTokens UseTokensFacts Samples.

(** After any history of the socket, a [sync] that carries tokens is
    suppressed exactly when [Date.now()] is below 1000: the handler
    subtracts the [lastSyncTime] of the first render, which is 0. *)
Lemma throttle_compares_with_zero evs now figmaTokens :
  let h := fst (run evs mount) in
  let r := onmessage now (Some {| type := "sync"; payload_tokens := Some figmaTokens |}) h in
  ((now < 1000)%Z → r = (h, [])) ∧
  ((1000 ≤ now)%Z → mutations (snd r) = 1 ∧ lastSyncTime (fst r) = now).
Proof.
  cbv zeta. unfold onmessage. cbn [type payload_tokens].
  destruct (mounted_run evs mount mounted_mount) as (_ & _ & ->).
  rewrite Z.sub_0_r. destruct (decide ("sync" = "sync")); [|done].
  split; intros H.
  - apply Z.ltb_lt in H. by rewrite H.
  - apply Z.ltb_ge in H. by rewrite H.
Qed.

(** C4, on the code: the same [sync] arrives twice, 500 ms apart.  The
    first is applied and sets [lastSyncTime]; the second comes within the
    window of 1000 ms and is applied as well. *)
Theorem second_sync_within_window_is_applied :
  let first := step (MessageAt clock (Some sync_message)) mount in
  let second := step (MessageAt (clock + 500) (Some sync_message)) (fst first) in
  lastSyncTime (fst first) = clock ∧
  ((clock + 500) - lastSyncTime (fst first) < 1000)%Z ∧
  snd second = [SetLastSyncTime (clock + 500);
                SetTokens [convertDesignToken design_c1]] ∧
  lastSyncTime (fst second) = (clock + 500)%Z ∧
  mutations (snd first ++ snd second) = 2.
Proof. repeat split; done. Qed.

(** C5.  When a [sync] is applied, the new token list is the previous
    tokens that are manual, in their order, followed by the incoming
    tokens, one for one and in their order, each with the id, the name,
    the value and the description it came with and with the type that
    the mapping gives to its type. *)
Theorem applied_sync_keeps_manual_tokens now figmaTokens h :
  (1000 ≤ now - handlers_lastSyncTime h)%Z →
  let h' := fst (onmessage now (Some {| type := "sync";
                                        payload_tokens := Some figmaTokens |}) h) in
  ∃ kept incoming,
    tokens h' = kept ++ incoming ∧
    keeps (manual figmaTokens) (tokens h) kept ∧
    Forall2 converted figmaTokens incoming ∧
    id <$> incoming = Shared.id <$> figmaTokens.
Proof.
  intros H. cbv zeta. unfold onmessage. cbn [type payload_tokens].
  destruct (decide ("sync" = "sync")); [|done].
  apply Z.ltb_ge in H. rewrite H. cbn [fst tokens]. unfold merge.
  eexists _, _. split; [reflexivity|]. split; [|split].
  - apply filter_keeps. intros t. apply isFigmaToken_manual.
  - apply Forall2_fmap_r, Forall_Forall2_diag, Forall_forall.
    intros d _. apply convertDesignToken_converted.
  - by rewrite <- list_fmap_compose.
Qed.

Lemma applied_sync_keeps_manual_tokens_witness :
  tokens (fst (onmessage clock
                 (Some {| type := "sync"; payload_tokens := Some [design_c1; design_flag] |})
                 in_use))
  = [by_hand;
     {| id := "c1"; name := "Brand/Primary"; _type := TokenType "color";
        _value := JStr "#0066CC"; _description := None |};
     {| id := "VariableID:7:1"; name := "Flags/Dark"; _type := TokenType "number";
        _value := JBool true; _description := Some "boolean variable from Flags" |}].
Proof.
  destruct (applied_sync_keeps_manual_tokens clock [design_c1; design_flag] in_use)
    as (kept & incoming & Ht & Hk & Hc & _); [vm_compute; discriminate|].
  rewrite Ht.
  assert (kept = [by_hand]) as ->.
  { apply (keeps_unique _ _ _ _ Hk).
    change [by_hand]
      with (filter (λ t, isFigmaToken
                           (id <$> (convertDesignToken <$> [design_c1; design_flag])) t
                         = false)
                   (tokens in_use)).
    apply filter_keeps. intros t. apply isFigmaToken_manual. }
  apply Forall2_cons_inv_l in Hc as (t1 & rest & H1 & Hc & ->).
  apply Forall2_cons_inv_l in Hc as (t2 & rest' & H2 & Hc & ->).
  apply Forall2_nil_inv_l in Hc as ->.
  destruct H1 as (I1 & N1 & V1 & D1 & T1 & _).
  destruct H2 as (I2 & N2 & V2 & D2 & _ & _ & T2 & _).
  specialize (T1 (list_elem_of_here _ _)). specialize (T2 eq_refl).
  destruct t1, t2. cbn in *. by subst.
Defined.

End UseTokensClaims.

Module WebSocketClientFacts.
Import WebSocketClient.

Lemma closes_fields k c :
  reconnectInterval (closes k c) = reconnectInterval c ∧
  maxReconnectAttempts (closes k c) = maxReconnectAttempts c.
Proof.
  induction k as [|k [IH1 IH2]]; [done|]. simpl. unfold attemptReconnect.
  by destruct (_ <? _).
Qed.

(** The counter after [k] closes in a row since the last open. *)
Lemma closes_attempts k c :
  reconnectAttempts c = 0 →
  reconnectAttempts (closes k c) = k `min` maxReconnectAttempts c.
Proof.
  intros H0. induction k as [|k IH]; [simpl; lia|].
  change (closes (S k) c) with (fst (attemptReconnect (closes k c))).
  unfold attemptReconnect.
  destruct (closes_fields k c) as [_ Hmax].
  destruct (_ <? _) eqn:E; cbn [fst reconnectAttempts].
  - apply Nat.ltb_lt in E. lia.
  - apply Nat.ltb_ge in E. lia.
Qed.

End WebSocketClientFacts.

Module WebSocketClientClaims.
Import WebSocketClient WebSocketClientFacts.

(** C7, as stated, fails at K = cap: the fifth close in a row still sets
    the reconnection timer. *)
Lemma fifth_close_schedules_a_reconnect :
  maxReconnectAttempts new = 5 ∧
  snd (step Close (closes 4 new)) = [SetTimeout_connect 5000] ∧
  scheduled (snd (step Close (closes 4 new))) = true ∧
  reconnectAttempts (closes 5 new) = 5.
Proof. repeat split; done. Qed.

(** C7, amended.  Counting closes in a row from a counter of 0: each of
    the first cap closes sets the reconnection timer and leaves the counter
    at the number of closes so far; every close after the cap-th sets no
    timer and leaves the counter at the cap; an open sets the counter to
    0. *)
Theorem reconnects_until_cap_is_exceeded c k :
  reconnectAttempts c = 0 →
  (k < maxReconnectAttempts c →
   snd (step Close (closes k c)) = [SetTimeout_connect (reconnectInterval c)] ∧
   reconnectAttempts (closes (S k) c) = S k) ∧
  (maxReconnectAttempts c ≤ k →
   snd (step Close (closes k c)) = [] ∧
   reconnectAttempts (closes (S k) c) = maxReconnectAttempts c) ∧
  reconnectAttempts (fst (step Open (closes k c))) = 0.
Proof.
  intros H0. pose proof (closes_attempts k c H0) as Hk.
  destruct (closes_fields k c) as [Hint Hmax].
  split; [|split; [|done]]; intros H;
    change (closes (S k) c) with (fst (attemptReconnect (closes k c)));
    change (step Close (closes k c)) with (attemptReconnect (closes k c));
    unfold attemptReconnect; rewrite Hk, Hmax, Hint.
  - assert (((k `min` maxReconnectAttempts c) <? maxReconnectAttempts c) = true) as ->.
    { apply Nat.ltb_lt. lia. }
    cbn [fst snd reconnectAttempts]. split; [done|lia].
  - assert (((k `min` maxReconnectAttempts c) <? maxReconnectAttempts c) = false) as ->.
    { apply Nat.ltb_ge. lia. }
    cbn [fst snd]. split; [done|lia].
Qed.

Lemma reconnects_until_cap_is_exceeded_witness :
  snd (step Close (closes 4 new)) = [SetTimeout_connect 5000] ∧
  snd (step Close (closes 5 new)) = [] ∧
  reconnectAttempts (closes 6 new) = 5.
Proof.
  pose proof (reconnects_until_cap_is_exceeded new 4 eq_refl) as [H4 _].
  pose proof (reconnects_until_cap_is_exceeded new 5 eq_refl) as [_ [H5 _]].
  split; [apply H4; simpl; lia|]. apply H5. simpl. lia.
Defined.

End WebSocketClientClaims.

Module HybridClientFacts.
Import Js HybridClient.

Lemma forEach_dispatched throws message handlers :
  Forall (λ m, m = message) (snd <$> dispatched (fst (forEach throws message handlers))).
Proof.
  induction handlers as [|h handlers IH]; simpl; [constructor|].
  destruct (throws h); simpl.
  - by repeat constructor.
  - destruct (forEach throws message handlers) as [effects completed]. simpl in *.
    by constructor.
Qed.

Lemma forEach_no_throw throws message handlers :
  Forall (λ h, throws h = false) handlers →
  forEach throws message handlers = ((λ h, Handle h message) <$> handlers, true).
Proof.
  induction 1 as [|h handlers Hh _ IH]; simpl; [done|]. by rewrite Hh, IH.
Qed.

Lemma dispatched_app e1 e2 : dispatched (e1 ++ e2) = dispatched e1 ++ dispatched e2.
Proof. apply omap_app. Qed.

Lemma dispatched_handles message handlers :
  dispatched ((λ h, Handle h message) <$> handlers) = (λ h, (h, message)) <$> handlers.
Proof.
  unfold dispatched. induction handlers as [|h handlers IH]; csimpl; [done | by f_equal].
Qed.

End HybridClientFacts.

Module HybridClientClaims.
Import Js HybridClient HybridClientFacts Samples.

(** C10.  A tick of the poll calls the message handlers only when the
    client is connected, the response is ok, its body parses, and the
    body's [tokens] is truthy with a [length] above zero; the handlers are
    then given ['sync'] with those tokens.  For a token array this is: the
    handlers are called when the array is not empty, and when it is empty
    the tick does nothing but set the next timer. *)
Theorem poll_dispatches_only_nonempty_snapshots ToNumber_positive throws now fetched c :
  let effects := pollForUpdates ToNumber_positive throws now fetched c in
  (dispatched effects ≠ [] →
   isConnected c = true ∧
   ∃ data tokens,
     fetched = Response true (Some data) ∧
     get (J data) "tokens" = Some (J tokens) ∧
     truthy (J tokens) = true ∧
     length_positive ToNumber_positive tokens = Some true ∧
     Forall (λ m, m = JObj [("type", JStr "sync"); ("payload", JObj [("tokens", tokens)])])
            (snd <$> dispatched effects)) ∧
  (∀ data items,
     isConnected c = true →
     fetched = Response true (Some data) →
     get (J data) "tokens" = Some (J (JArr items)) →
     (items = [] → effects = [SetTimeout_pollForUpdates 3000]) ∧
     (items ≠ [] →
      Forall (λ h, throws h = false) (seq 0 (messageHandlers c)) →
      dispatched effects
      = (λ h, (h, JObj [("type", JStr "sync"); ("payload", JObj [("tokens", JArr items)])]))
          <$> seq 0 (messageHandlers c))).
Proof.
  cbv zeta. unfold pollForUpdates, poll_body. split.
  - destruct (isConnected c); [|done]. intros H. split; [done|].
    destruct fetched as [|[|] [data|]]; try done.
    destruct (get (J data) "tokens") as [tokens|] eqn:G; [|done].
    destruct (truthy tokens) eqn:T; [|done].
    destruct (gt_zero ToNumber_positive (get_opt tokens "length")) as [[|]|] eqn:L;
      try done.
    destruct tokens as [|t]; [done|].
    exists data, t. split; [done|]. split; [done|]. split; [done|]. split.
    { unfold length_positive. unfold get_opt in L.
      destruct (get (J t) "length") as [len|] eqn:G'; [by rewrite <- L|by destruct t]. }
    cbn [andb].
    pose proof (forEach_dispatched throws
                  (JObj [("type", JStr "sync"); ("payload", JObj [("tokens", t)])])
                  (seq 0 (messageHandlers c))) as D.
    destruct (forEach throws _ (seq 0 (messageHandlers c))) as [effects completed].
    cbn [fst] in D.
    destruct completed; rewrite ?dispatched_app;
      change (dispatched [_]) with (@nil (nat * JSON)); by rewrite ?app_nil_r.
  - intros data items -> -> ->. split.
    + by intros ->.
    + intros Hne Hthrows. cbn [truthy andb].
      assert (gt_zero ToNumber_positive (get_opt (J (JArr items)) "length") = Some true)
        as ->.
      { by destruct items. }
      rewrite (forEach_no_throw _ _ _ Hthrows).
      rewrite !dispatched_app, dispatched_handles.
      change (dispatched [_]) with (@nil (nat * JSON)). by rewrite !app_nil_r.
Qed.

Lemma poll_dispatches_only_nonempty_snapshots_witness :
  pollForUpdates no_coercion (λ _, false) clock
    (Response true (Some (JObj [("tokens", JArr [])]))) {| messageHandlers := 1; isConnected := true |}
  = [SetTimeout_pollForUpdates 3000] ∧
  dispatched (pollForUpdates no_coercion (λ _, false) clock
                (Response true (Some (JObj [("tokens", JArr [token_c1])])))
                {| messageHandlers := 1; isConnected := true |})
  = [(0, JObj [("type", JStr "sync"); ("payload", JObj [("tokens", JArr [token_c1])])])].
Proof.
  split.
  - pose proof (poll_dispatches_only_nonempty_snapshots no_coercion (λ _, false) clock
                  (Response true (Some (JObj [("tokens", JArr [])])))
                  {| messageHandlers := 1; isConnected := true |}) as [_ H].
    apply (H _ [] eq_refl eq_refl eq_refl). reflexivity.
  - pose proof (poll_dispatches_only_nonempty_snapshots no_coercion (λ _, false) clock
                  (Response true (Some (JObj [("tokens", JArr [token_c1])])))
                  {| messageHandlers := 1; isConnected := true |}) as [_ H].
    apply (H _ [token_c1] eq_refl eq_refl eq_refl); [discriminate|].
    repeat constructor.
Defined.

End HybridClientClaims.

(** * Further properties of the token store *)
Module StoreMore.
Import Shared Store StoreRun StoreFacts Samples.

Lemma find_after_update s t :
  ∃ k, list_find (λ u, id u = id t) (apply s (Update t)) = Some (k, t).
Proof.
  unfold apply, getTokens, handleTokenMessage. cbn [fst tokens].
  destruct (findIndex (id t) (tokens s)) as [k|] eqn:E.
  - apply findIndex_Some in E as (old & Hk & Hid & Hlt).
    exists k. apply list_find_Some. split; [|split; [done|]].
    + apply list_lookup_insert_eq. by eapply lookup_lt_Some.
    + intros j u Hj Hjk. rewrite list_lookup_insert_ne in Hj by lia. by eapply Hlt.
  - apply findIndex_None in E. exists (length (tokens s)).
    apply list_find_Some. split; [|split; [done|]].
    + by rewrite lookup_app_r, Nat.sub_diag.
    + intros j u Hj Hjk. rewrite lookup_app_l in Hj by done.
      rewrite Forall_forall in E. apply E. by eapply list_elem_of_lookup_2.
Qed.

(** X1.  After [update] of a token, the first stored token that carries its
    id is that token, whether it replaced an entry or was appended. *)
Theorem update_then_find s t :
  ∃ k, list_find (λ u, id u = id t) (getTokens (after s (Update t))) = Some (k, t) ∧
       findIndex (id t) (getTokens (after s (Update t))) = Some k.
Proof.
  destruct (find_after_update s t) as [k Hk]. exists k. split; [exact Hk|].
  unfold findIndex. change (getTokens (after s (Update t))) with (apply s (Update t)).
  by rewrite Hk.
Qed.

(** X2.  [update] is idempotent: handling the same [update] a second time
    leaves the store as the first left it. *)
Theorem update_idempotent s t :
  getTokens (after (after s (Update t)) (Update t)) = getTokens (after s (Update t)).
Proof.
  destruct (find_after_update s t) as [k Hk].
  change (getTokens (after s (Update t))) with (apply s (Update t)) in *.
  unfold after at 1. unfold getTokens at 1, handleTokenMessage at 1. cbn [fst tokens].
  change (tokens (after s (Update t))) with (apply s (Update t)).
  unfold findIndex. rewrite Hk. cbn [fmap option_fmap option_map fst].
  apply list_insert_id. by apply list_find_Some in Hk as [? _].
Qed.

(** X3.  After [delete] of an id no stored token carries it: a second
    [delete] of the id changes nothing, and an [update] of a token with
    that id appends it. *)
Theorem delete_then s tokenId :
  Forall (λ t, id t ≠ tokenId) (getTokens (after s (Delete tokenId))) ∧
  getTokens (after (after s (Delete tokenId)) (Delete tokenId))
  = getTokens (after s (Delete tokenId)) ∧
  ∀ t, id t = tokenId →
       getTokens (after (after s (Delete tokenId)) (Update t))
       = getTokens (after s (Delete tokenId)) ++ [t].
Proof.
  assert (Forall (λ t, id t ≠ tokenId) (getTokens (after s (Delete tokenId)))) as H.
  { apply Forall_forall. intros t Ht. by apply list_elem_of_filter in Ht as [? _]. }
  split; [done|]. split.
  - unfold after at 1. unfold getTokens at 1, handleTokenMessage. cbn [fst tokens].
    by apply filter_keep_all.
  - intros t <-. unfold after at 1. unfold getTokens at 1, handleTokenMessage.
    cbn [fst tokens]. apply findIndex_None in H.
    change (tokens (after s (Delete (id t)))) with (getTokens (after s (Delete (id t)))).
    by rewrite H.
Qed.

(** X4.  [create] and then [delete] of the created id gives back the
    stored array, when no stored token carried the id before; when one
    did, the [delete] takes it away as well. *)
Theorem create_then_delete s t :
  (Forall (λ u, id u ≠ id t) (tokens s) →
   getTokens (after (after s (Create t)) (Delete (id t))) = tokens s) ∧
  (∀ u, u ∈ tokens s → id u = id t →
        u ∉ getTokens (after (after s (Create t)) (Delete (id t)))).
Proof.
  unfold after, getTokens, handleTokenMessage. cbn [fst tokens]. split.
  - intros H. rewrite filter_app, (filter_keep_all _ _ H).
    rewrite filter_cons_False by (intros Hn; by apply Hn).
    by rewrite app_nil_r.
  - intros u _ Hu Hin. apply list_elem_of_filter in Hin as [Hn _]. by apply Hn.
Qed.

Lemma create_then_delete_witness :
  getTokens (after (after {| tokens := [design_c1]; onTokenUpdateCallback := true |}
                          (Create design_c2)) (Delete "c2")) = [design_c1].
Proof.
  pose proof (create_then_delete
                {| tokens := [design_c1]; onTokenUpdateCallback := true |} design_c2)
    as [H _].
  apply H. by repeat constructor.
Defined.

(** X5.  When no two stored tokens share an id, none do after an [update]
    or a [delete]; after a [create] none do exactly when the created id
    was not stored.  An [update] of a stored id leaves the sequence of ids
    as it was. *)
Theorem ids_stay_unique s :
  NoDup (id <$> tokens s) →
  (∀ t, NoDup (id <$> getTokens (after s (Update t)))) ∧
  (∀ tokenId, NoDup (id <$> getTokens (after s (Delete tokenId)))) ∧
  (∀ t, NoDup (id <$> getTokens (after s (Create t))) ↔ id t ∉ id <$> tokens s) ∧
  (∀ t, id t ∈ id <$> tokens s →
        id <$> getTokens (after s (Update t)) = id <$> tokens s).
Proof.
  intros Hnd.
  assert (∀ t, id t ∉ id <$> tokens s → NoDup (id <$> (tokens s ++ [t]))) as Happ.
  { intros t Hn. rewrite fmap_app. apply NoDup_app. split; [done|]. split.
    - intros x Hx Hin. apply list_elem_of_singleton in Hin. by subst.
    - apply NoDup_singleton. }
  assert (∀ t k, findIndex (id t) (tokens s) = Some k →
                 id <$> <[k:=t]> (tokens s) = id <$> tokens s) as Hins.
  { intros t k E. apply findIndex_Some in E as (old & Hk & Hid & _).
    rewrite list_fmap_insert. apply list_insert_id.
    by rewrite list_lookup_fmap, Hk, <- Hid. }
  unfold after, getTokens, handleTokenMessage. cbn [fst tokens].
  split; [|split; [|split]].
  - intros t. destruct (findIndex (id t) (tokens s)) as [k|] eqn:E.
    + by rewrite (Hins t k E).
    + apply Happ. apply findIndex_None in E. rewrite Forall_forall in E.
      intros (u & Hu & Hin)%list_elem_of_fmap. by apply (E u).
  - intros tokenId. eapply sublist_NoDup; [exact Hnd|].
    apply fmap_sublist, sublist_filter.
  - intros t. split; [|apply Happ].
    rewrite fmap_app. intros (_ & H & _)%NoDup_app Hin.
    apply (H _ Hin). apply list_elem_of_singleton. done.
  - intros t (u & Hu & Hin)%list_elem_of_fmap.
    destruct (findIndex (id t) (tokens s)) as [k|] eqn:E; [by apply Hins|].
    apply findIndex_None in E. rewrite Forall_forall in E. by destruct (E u Hin).
Qed.

Lemma ids_stay_unique_witness :
  NoDup (id <$> getTokens (after {| tokens := [design_c1; design_c2];
                                    onTokenUpdateCallback := false |}
                                 (Update design_c2))) ∧
  ¬ NoDup (id <$> getTokens (after {| tokens := [design_c1; design_c2];
                                      onTokenUpdateCallback := false |}
                                   (Create design_c2))).
Proof.
  assert (NoDup (id <$> [design_c1; design_c2])) as Hnd.
  { apply NoDup_cons. split; [|apply NoDup_singleton].
    intros Hin%list_elem_of_singleton. discriminate. }
  pose proof (ids_stay_unique {| tokens := [design_c1; design_c2];
                                 onTokenUpdateCallback := false |} Hnd)
    as (H1 & _ & H3 & _).
  split; [apply H1|]. intros H. apply (H3 design_c2) in H. apply H.
  right. left.
Defined.

End StoreMore.

(** * Further properties of the relay *)
Module RelayMore.
Import Js Relay RelayRun RelayFacts Samples.

Lemma sync_tokens_intro message payload t :
  get (J message) "type" = Some (J (JStr "sync")) →
  get (J message) "payload" = Some payload →
  get payload "tokens" = Some (J t) →
  truthy (J t) = true →
  sync_tokens message = Some (Some t).
Proof.
  intros Hty Hp Ht Htr. unfold sync_tokens. rewrite Hty.
  cbn [mbind option_bind strict_equal]. rewrite bool_decide_eq_true_2 by done.
  rewrite Hp. cbn [mbind option_bind]. rewrite Ht. cbn [mbind option_bind].
  by rewrite Htr.
Qed.

Lemma store_found st message t :
  sync_tokens message = Some (Some t) →
  store st message = Some {| sseClients := sseClients st; wsClients := wsClients st;
                             currentTokens := t |}.
Proof. intros H. unfold store. by rewrite H. Qed.

Lemma broadcast_currentTokens env data st :
  currentTokens (fst (broadcastToAll env data st)) = currentTokens st.
Proof. by rewrite broadcastToAll_spec. Qed.

(** X6.  A [sync] with truthy [payload.tokens], from a push socket or from
    a POST, is what the relay serves from then on: a GET returns those
    tokens, and a client that connects is sent them as its catch-up. *)
Theorem sync_is_stored_and_served ToNumber_positive env now message payload t st :
  get (J message) "type" = Some (J (JStr "sync")) →
  get (J message) "payload" = Some payload →
  get payload "tokens" = Some (J t) →
  truthy (J t) = true →
  ∀ r, r = on_message env now (Some message) st
       ∨ r = tokens env now "POST" (Some message) st →
    currentTokens (fst r) = t ∧
    (∀ env' now', ∃ body,
        snd (tokens env' now' "GET" None (fst r)) !! 1 = Some (End (Some body)) ∧
        get (J body) "tokens" = Some (J t)) ∧
    (∀ env' now' c,
        length_positive ToNumber_positive t = Some true →
        sent (snd (on_connection ToNumber_positive env' now' c (fst r)))
        = [JObj [("type", JStr "initial_sync"); ("tokens", t); ("timestamp", JNum now')]] ∧
        sent (snd (stream ToNumber_positive env' now' "GET" c (fst r)))
        = [JObj [("type", JStr "initial_sync"); ("tokens", t); ("timestamp", JNum now')]]).
Proof.
  intros Hty Hp Ht Htr r Hr.
  pose proof (store_found st message t (sync_tokens_intro _ _ _ Hty Hp Ht Htr)) as Hst.
  assert (currentTokens (fst r) = t) as Hc.
  { destruct Hr as [-> | ->].
    - unfold on_message. rewrite Hst. by rewrite broadcast_currentTokens.
    - rewrite (tokens_post _ _ _ _ _ Hst). destruct (log_throws message); [done|].
      cbn [fst]. by rewrite broadcast_currentTokens. }
  split; [done|]. split.
  - intros env' now'. eexists. unfold tokens. simpl. split; [reflexivity|].
    simpl. by rewrite Hc.
  - intros env' now' c Hl. unfold on_connection, stream, initial_sync.
    simpl. rewrite Hc, Hl. destruct (send_throws env' c), (write_throws env' c); done.
Qed.

Lemma sync_is_stored_and_served_witness :
  currentTokens (fst (on_message healthy clock (Some sync_c1) two_push_one_stream))
  = JArr [token_c1].
Proof.
  destruct (sync_is_stored_and_served no_coercion healthy clock sync_c1
              (J (JObj [("tokens", JArr [token_c1])])) (JArr [token_c1])
              two_push_one_stream eq_refl eq_refl eq_refl eq_refl _ (or_introl eq_refl))
    as [H _].
  exact H.
Defined.

Lemma store_truthy st message st' :
  store st message = Some st' →
  truthy (J (currentTokens st)) = true → truthy (J (currentTokens st')) = true.
Proof.
  unfold store. destruct (sync_tokens message) as [[t|]|] eqn:E; [| |done].
  - intros [= <-] _. by apply sync_tokens_found in E as (_ & payload & _ & _ & Ht).
  - by intros [= <-].
Qed.

Lemma step_truthy ToNumber_positive env now ev sv :
  truthy (J (currentTokens (state sv))) = true →
  truthy (J (currentTokens (state (fst (step ToNumber_positive env now ev sv))))) = true.
Proof.
  intros H.
  destruct ev as [ws|ws parsed|ws|ws|method res|res|res|method parsed]; cbn [step].
  - assert (truthy (J (currentTokens
                         (fst (on_connection ToNumber_positive env now ws (state sv)))))
            = true) as Hc.
    { unfold on_connection. by destruct (length_positive _ _) as [[|]|]. }
    by destruct (on_connection ToNumber_positive env now ws (state sv)).
  - destruct (decide (ws ∈ listening sv)); [|done]. cbn [handled fst state].
    destruct parsed as [message|]; [|done].
    unfold on_message. destruct (store (state sv) message) as [st'|] eqn:E; [|done].
    rewrite broadcast_currentTokens. by eapply store_truthy.
  - by destruct (decide (ws ∈ listening sv)).
  - by destruct (decide (ws ∈ listening sv)).
  - cbn [handled fst state]. unfold stream. destruct (decide _); [|done].
    destruct (length_positive _ _) as [[|]|]; try done.
    by destruct (write_throws env res).
  - done.
  - done.
  - cbn [handled fst state].
    destruct (decide (method = "POST")) as [->|Hn].
    + destruct parsed as [message|]; [|done].
      destruct (store (state sv) message) as [st'|] eqn:E.
      * rewrite (tokens_post _ _ _ _ _ E).
        pose proof (store_truthy _ _ _ E H) as H'.
        destruct (log_throws message); [done|]. cbn [fst].
        by rewrite broadcast_currentTokens.
      * by rewrite (tokens_post_unread _ _ _ _ E).
    + unfold tokens. destruct (decide (method = "GET")); [done|].
      rewrite decide_False by done. by destruct (decide _).
Qed.

Lemma run_truthy ToNumber_positive evs sv :
  truthy (J (currentTokens (state sv))) = true →
  truthy (J (currentTokens (state (fst (run ToNumber_positive evs sv))))) = true.
Proof.
  revert sv. induction evs as [|[[env now] ev] evs IH]; intros sv H; [done|].
  cbn [run]. pose proof (step_truthy ToNumber_positive env now ev sv H) as Hs.
  destruct (step ToNumber_positive env now ev sv) as [sv' e]. specialize (IH sv' Hs).
  by destruct (run ToNumber_positive evs sv') as [sv'' e'].
Qed.

(** When the comparison with zero throws. *)
Lemma gt_zero_None ToNumber_positive v :
  gt_zero ToNumber_positive v = None ↔ ∃ l, v = J l ∧ unprintable l = true.
Proof.
  split.
  - destruct v as [|[| | | |items|fields]]; try done; cbn [gt_zero].
    + destruct (unprintable (JArr items)) eqn:U; [|done]. intros _. by eexists.
    + destruct (unprintable (JObj fields)) eqn:U; [|done]. intros _. by eexists.
  - intros (l & -> & U). destruct l; try done; cbn [gt_zero]; by rewrite U.
Qed.

(** X7.  Whatever the relay has handled since it started, [currentTokens]
    is truthy, so reading its [length] when a client connects never
    throws.  An exception leaves a connection handler only when the
    comparison of that [length] with zero throws, which it does exactly
    when the [length] is an object or an array that cannot be converted
    to a primitive, or when the catch-up send or write itself throws.
    The push socket has been added to its set by then; the stream has
    not, and is added only when no exception leaves its handler. *)
Theorem currentTokens_stays_truthy ToNumber_positive evs env now c :
  let st := state (fst (run ToNumber_positive evs start)) in
  truthy (J (currentTokens st)) = true ∧
  get (J (currentTokens st)) "length" ≠ None ∧
  (length_positive ToNumber_positive (currentTokens st) = None ↔
   ∃ l, get (J (currentTokens st)) "length" = Some (J l) ∧ unprintable l = true) ∧
  (Uncaught ∈ snd (on_connection ToNumber_positive env now c st) ↔
   length_positive ToNumber_positive (currentTokens st) = None ∨
   (length_positive ToNumber_positive (currentTokens st) = Some true ∧
    send_throws env c = true)) ∧
  (Uncaught ∈ snd (stream ToNumber_positive env now "GET" c st) ↔
   length_positive ToNumber_positive (currentTokens st) = None ∨
   (length_positive ToNumber_positive (currentTokens st) = Some true ∧
    write_throws env c = true)) ∧
  wsClients (fst (on_connection ToNumber_positive env now c st)) = add c (wsClients st) ∧
  (Uncaught ∈ snd (stream ToNumber_positive env now "GET" c st) →
   fst (stream ToNumber_positive env now "GET" c st) = st) ∧
  (Uncaught ∉ snd (stream ToNumber_positive env now "GET" c st) →
   sseClients (fst (stream ToNumber_positive env now "GET" c st))
   = add c (sseClients st)).
Proof.
  cbv zeta. pose proof (run_truthy ToNumber_positive evs start eq_refl) as H.
  set (st := state (fst (run ToNumber_positive evs start))) in *.
  assert (∃ v, get (J (currentTokens st)) "length" = Some v) as [v Hv].
  { destruct (currentTokens st); try done; by eexists. }
  split; [done|]. split; [by rewrite Hv|]. split; [|split; [|split; [|split; [|split]]]].
  - unfold length_positive. rewrite Hv. cbn [mbind option_bind].
    rewrite gt_zero_None. split.
    + intros (l & -> & U). by exists l.
    + intros (l & [= ->] & U). by exists l.
  - unfold on_connection. destruct (length_positive _ _) as [[|]|].
    + destruct (send_throws env c); split.
      * intros _. by right.
      * intros _. right. left.
      * intros Hin. apply list_elem_of_singleton in Hin. discriminate.
      * by intros [|[_ ?]].
    + split; [by intros Hin%elem_of_nil | by intros [|[? _]]].
    + split; [by left | intros _; left].
  - unfold stream. destruct (decide ("GET" = "GET")); [|done].
    destruct (length_positive _ _) as [[|]|].
    + destruct (write_throws env c); split.
      * intros _. by right.
      * intros _. right. right. left.
      * intros Hin. repeat (apply elem_of_cons in Hin as [Hin|Hin]; [discriminate|]).
        by apply elem_of_nil in Hin.
      * by intros [|[_ ?]].
    + split; [|by intros [|[? _]]].
      intros Hin. repeat (apply elem_of_cons in Hin as [Hin|Hin]; [discriminate|]).
      by apply elem_of_nil in Hin.
    + split; [by left | intros _; right; left].
  - unfold on_connection. by destruct (length_positive _ _) as [[|]|].
  - unfold stream. destruct (decide ("GET" = "GET")); [|done].
    destruct (length_positive _ _) as [[|]|]; [destruct (write_throws env c)| |];
      try done; intros Hin;
      repeat (apply elem_of_cons in Hin as [Hin|Hin]; [discriminate|]);
      by apply elem_of_nil in Hin.
  - unfold stream. destruct (decide ("GET" = "GET")); [|done].
    destruct (length_positive _ _) as [[|]|]; [destruct (write_throws env c)| |];
      try done; intros Hn; destruct Hn; repeat constructor.
Qed.

Lemma own_define_eq k v fields : own k (define k v fields) = J v.
Proof.
  induction fields as [|[k' v'] fields IH]; simpl.
  - by rewrite decide_True.
  - destruct (decide (k' = k)) as [->|Hne]; simpl.
    + by rewrite decide_True.
    + by rewrite decide_False.
Qed.

Lemma own_define_ne k k' v fields :
  k ≠ k' → own k' (define k v fields) = own k' fields.
Proof.
  intros Hne. induction fields as [|[k'' v''] fields IH]; simpl.
  - by rewrite decide_False.
  - destruct (decide (k'' = k)) as [->|Hne']; simpl.
    + by rewrite !decide_False.
    + destruct (decide (k'' = k')); [done|]. exact IH.
Qed.

(** X8.  The stamped message carries the relay's [source] and [timestamp],
    whatever the sender had put under those names, and every other
    property of the message as it came. *)
Theorem stamp_overrides_source_and_timestamp message source now :
  get (J (stamp message source now)) "source" = Some (J (JStr source)) ∧
  get (J (stamp message source now)) "timestamp" = Some (J (JNum now)) ∧
  (∀ k, k ≠ "source" → k ≠ "timestamp" →
        get (J (stamp message source now)) k = Some (own k (spread message))) ∧
  (∀ k fields, message = JObj fields → k ≠ "source" → k ≠ "timestamp" →
        get (J (stamp message source now)) k = get (J message) k).
Proof.
  unfold stamp. cbn [get]. split; [|split; [|split]].
  - by rewrite own_define_ne, own_define_eq.
  - by rewrite own_define_eq.
  - intros k Hs Ht. by rewrite !own_define_ne.
  - intros k fields -> Hs Ht. by rewrite !own_define_ne.
Qed.

Lemma stamp_overrides_source_and_timestamp_witness :
  get (J (stamp (JObj [("type", JStr "update"); ("source", JStr "me");
                       ("timestamp", JNum 1)]) "websocket" clock)) "type"
  = Some (J (JStr "update")).
Proof.
  destruct (stamp_overrides_source_and_timestamp
              (JObj [("type", JStr "update"); ("source", JStr "me"); ("timestamp", JNum 1)])
              "websocket" clock) as (_ & _ & _ & H).
  apply (H "type" _ eq_refl); discriminate.
Defined.

Lemma store_None st message :
  store st message = None ↔
  message = JNull ∨
  (get (J message) "type" = Some (J (JStr "sync")) ∧
   (get (J message) "payload" = Some Undefined ∨
    get (J message) "payload" = Some (J JNull))).
Proof.
  unfold store, sync_tokens. split.
  - destruct (get (J message) "type") as [ty|] eqn:Ety.
    + cbn [mbind option_bind]. destruct (strict_equal ty "sync") eqn:S; [|done].
      apply strict_equal_true in S as ->.
      destruct (get (J message) "payload") as [payload|] eqn:Ep.
      * cbn [mbind option_bind].
        destruct payload as [|[| | | | |]]; try done; intros _; right; auto.
      * destruct message; done.
    + intros _. left. by destruct message.
  - intros [-> | [Hty [Hp | Hp]]]; [done| |]; rewrite Hty;
      cbn [mbind option_bind strict_equal]; rewrite bool_decide_eq_true_2 by done;
      by rewrite Hp.
Qed.

(** X9.  The messages that parse and are not broadcast.  [null], and a
    [sync] whose [payload] is missing or [null], cannot be read: a POST
    of one is answered 400 "Invalid JSON", a push message of one is
    dropped, and nothing is stored.  Every other message from a push
    socket is broadcast.  Every other POST is broadcast and answered 200,
    but for a [sync] whose truthy [payload.tokens] has a [length] that
    cannot be converted to a string: its tokens are stored, the log line
    then throws, nothing is sent and the answer is 400. *)
Theorem unreadable_message_is_rejected env now message st :
  let unreadable :=
    message = JNull ∨
    (get (J message) "type" = Some (J (JStr "sync")) ∧
     (get (J message) "payload" = Some Undefined ∨
      get (J message) "payload" = Some (J JNull))) in
  let everyone := sseClients st ++ filter (λ c, readyState env c = 1%Z) (wsClients st) in
  let push := on_message env now (Some message) st in
  let post := tokens env now "POST" (Some message) st in
  (unreadable → post = (st, invalid_json) ∧ push = (st, [])) ∧
  (¬ unreadable →
   recipients (snd push) = everyone ∧
   sent (snd push) = replicate (length everyone) (stamp message "websocket" now) ∧
   (log_throws message = false →
    recipients (snd post) = everyone ∧
    sent (snd post) = replicate (length everyone) (stamp message "figma" now) ∧
    WriteHead 200 cors_post ∈ snd post ∧
    WriteHead 400 [("Content-Type", "application/json")] ∉ snd post) ∧
   (log_throws message = true →
    ∃ t, sync_tokens message = Some (Some t) ∧
         post = ({| sseClients := sseClients st; wsClients := wsClients st;
                    currentTokens := t |}, invalid_json))) ∧
  (log_throws message = true ↔
   ∃ payload t l,
     get (J message) "type" = Some (J (JStr "sync")) ∧
     get (J message) "payload" = Some payload ∧
     get payload "tokens" = Some (J t) ∧ truthy (J t) = true ∧
     get (J t) "length" = Some (J l) ∧ unprintable l = true).
Proof.
  cbv zeta. split; [|split].
  - intros H. apply (store_None st) in H.
    rewrite (tokens_post_unread _ _ _ _ H). unfold on_message. by rewrite H.
  - intros H. destruct (store st message) as [st'|] eqn:E;
      [|by apply store_None in E].
    destruct (store_sets _ _ _ E) as [Hs Hw].
    rewrite (tokens_post _ _ _ _ _ E). unfold on_message. rewrite E.
    rewrite !broadcastToAll_spec, Hs, Hw. cbn [fst snd].
    rewrite recipients_app, sent_app, recipients_sse, recipients_ws, sent_sse, sent_ws,
      <- replicate_add, <- length_app.
    split; [done|]. split; [done|]. split.
    + intros ->. cbn [fst snd].
      rewrite !recipients_app, !sent_app, recipients_sse, recipients_ws, sent_sse, sent_ws,
        <- replicate_add, <- length_app.
      change (recipients [_; _]) with (@nil Client). change (sent [_; _]) with (@nil JSON).
      rewrite !app_nil_r. split; [done|]. split; [done|]. split.
      * apply elem_of_app. right. left.
      * rewrite !elem_of_app, !list_elem_of_fmap, !elem_of_cons, elem_of_nil.
        intros [[(c & [=] & _) | (c & [=] & _)] | [[=] | [[=] | []]]].
    + intros Hl. rewrite Hl.
      apply log_throws_true in Hl as (t & l & Hsync & _). exists t. split; [done|].
      rewrite (store_found st _ _ Hsync) in E. by injection E as <-.
  - rewrite log_throws_true. split.
    + intros (t & l & Hsync & Hlen & U).
      destruct (sync_tokens_found _ _ Hsync) as (Hty & payload & Hp & Ht & Htr).
      by exists payload, t, l.
    + intros (payload & t & l & Hty & Hp & Ht & Htr & Hlen & U).
      exists t, l. split; [|done]. by eapply sync_tokens_intro.
Qed.

Lemma unreadable_message_is_rejected_witness :
  tokens healthy clock "POST" (Some (JObj [("type", JStr "sync")])) synced
  = (synced, invalid_json) ∧
  recipients (snd (on_message healthy clock (Some (JObj [("type", JStr "sync");
                                                        ("payload", JObj [])])) synced))
  = [3; 1; 2] ∧
  tokens healthy clock "POST" (Some sync_unprintable) synced
  = ({| sseClients := [3]; wsClients := [1; 2]; currentTokens := unprintable_tokens |},
     invalid_json).
Proof.
  split; [|split].
  - pose proof (unreadable_message_is_rejected healthy clock
                  (JObj [("type", JStr "sync")]) synced) as [H _].
    apply H. right. split; [reflexivity|]. left. reflexivity.
  - pose proof (unreadable_message_is_rejected healthy clock
                  (JObj [("type", JStr "sync"); ("payload", JObj [])]) synced)
      as (_ & H & _).
    destruct H as [H _]; [|exact H].
    intros [Hn | [_ [Hp | Hp]]]; discriminate.
  - pose proof (unreadable_message_is_rejected healthy clock sync_unprintable synced)
      as (_ & H & _).
    destruct H as (_ & _ & _ & H).
    { intros [Hn | [_ [Hp | Hp]]]; discriminate. }
    destruct (H eq_refl) as (t & Ht & Hpost).
    injection Ht as <-. exact Hpost.
Defined.

Lemma currentTokens_stays_truthy_witness :
  truthy (J (currentTokens
               (state (fst (run no_coercion [(healthy, clock, WsMessage 1 (Some sync_c1))]
                              start)))))
  = true ∧
  Uncaught ∈ snd (on_connection no_coercion healthy clock 7
                    (state (fst (run no_coercion
                                   [(healthy, clock, TokensRequest "POST" (Some sync_unprintable))]
                                   start)))).
Proof.
  destruct (currentTokens_stays_truthy no_coercion
              [(healthy, clock, WsMessage 1 (Some sync_c1))] healthy clock 1) as [H _].
  destruct (currentTokens_stays_truthy no_coercion
              [(healthy, clock, TokensRequest "POST" (Some sync_unprintable))]
              healthy clock 7) as (_ & _ & _ & H' & _).
  split; [exact H|]. apply H'. left. reflexivity.
Defined.

Lemma elem_of_add c x set : c ∈ add x set → c = x ∨ c ∈ set.
Proof.
  unfold add. destruct (decide (x ∈ set)); [by right|].
  intros [H|H%list_elem_of_singleton]%elem_of_app; auto.
Qed.

Lemma elem_of_add_here x set : x ∈ add x set.
Proof.
  unfold add. destruct (decide (x ∈ set)); [done|].
  apply elem_of_app. right. left.
Qed.

Lemma elem_of_delete c x set : c ∈ delete x set ↔ c ≠ x ∧ c ∈ set.
Proof. unfold delete. exact (list_elem_of_filter (λ c', c' ≠ x) set c). Qed.

Lemma broadcast_members env data st c :
  (c ∈ recipients (snd (broadcastToAll env data st)) →
   c ∈ sseClients st ∨ c ∈ wsClients st) ∧
  (c ∈ sseClients (fst (broadcastToAll env data st)) → c ∈ sseClients st) ∧
  (c ∈ wsClients (fst (broadcastToAll env data st)) → c ∈ wsClients st).
Proof.
  rewrite recipients_broadcast, broadcastToAll_spec. cbn [fst sseClients wsClients].
  rewrite elem_of_app, !list_elem_of_filter. tauto.
Qed.

Lemma confined_idle c st who : confined c st who (st, []).
Proof. unfold confined. cbn [fst snd]. split; [by intros ?%elem_of_nil | auto]. Qed.

Lemma confined_answer c st who status headers body :
  confined c st who (st, [WriteHead status headers; End body]).
Proof. unfold confined. cbn [fst snd]. split; [by intros ?%elem_of_nil | auto]. Qed.

Lemma on_connection_confined ToNumber_positive env now ws st c :
  confined c st (ws = c) (on_connection ToNumber_positive env now ws st).
Proof.
  unfold confined, on_connection.
  assert (c ∈ add ws (wsClients st) → c ∈ wsClients st ∨ ws = c) as Ha.
  { intros [->|]%elem_of_add; auto. }
  destruct (length_positive _ _) as [[|]|]; cbn [fst snd sseClients wsClients];
    (split; [|split; [auto|exact Ha]]).
  - destruct (send_throws env ws); unfold recipients; simpl;
      rewrite list_elem_of_singleton; intros ->; auto.
  - by intros ?%elem_of_nil.
  - by intros ?%elem_of_nil.
Qed.

Lemma on_message_confined env now parsed st c who :
  confined c st who (on_message env now parsed st).
Proof.
  destruct parsed as [message|]; [|apply confined_idle].
  unfold on_message. destruct (store st message) as [st'|] eqn:E; [|apply confined_idle].
  destruct (store_sets _ _ _ E) as [Hs Hw].
  destruct (broadcast_members env (stamp message "websocket" now) st' c) as (H1 & H2 & H3).
  unfold confined. rewrite Hs, Hw in *. tauto.
Qed.

Lemma on_close_confined ws st c who : confined c st who (on_close ws st).
Proof.
  unfold confined, on_close. cbn [fst snd sseClients wsClients].
  split; [by intros ?%elem_of_nil|]. split; [auto|].
  intros [_ ?]%elem_of_delete. auto.
Qed.

Lemma stream_confined ToNumber_positive env now method res st c :
  confined c st (res = c) (stream ToNumber_positive env now method res st).
Proof.
  unfold confined, stream.
  assert (c ∈ add res (sseClients st) → c ∈ sseClients st ∨ res = c) as Ha.
  { intros [->|]%elem_of_add; auto. }
  destruct (decide (method = "GET"));
    [|cbn [fst snd]; split; [by intros ?%elem_of_nil | auto]].
  destruct (length_positive _ _) as [[|]|]; [destruct (write_throws env res)| |];
    cbn [fst snd sseClients wsClients];
    (split; [|split; auto]); unfold recipients; simpl;
    rewrite ?list_elem_of_singleton; try (intros ->; auto);
    try (by intros ?%elem_of_nil).
Qed.

Lemma stream_close_confined res st c who : confined c st who (stream_close res st).
Proof.
  unfold confined, stream_close. cbn [fst snd sseClients wsClients].
  split; [by intros ?%elem_of_nil|]. split; [|auto].
  intros [_ ?]%elem_of_delete. auto.
Qed.

Lemma tokens_confined env now method parsed st c who :
  confined c st who (tokens env now method parsed st).
Proof.
  destruct (decide (method = "POST")) as [->|Hn].
  - destruct parsed as [message|]; [|apply confined_answer].
    destruct (store st message) as [st'|] eqn:E.
    + rewrite (tokens_post _ _ _ _ _ E).
      destruct (store_sets _ _ _ E) as [Hs Hw].
      destruct (log_throws message).
      * unfold confined. cbn [fst snd]. rewrite Hs, Hw.
        split; [by intros ?%elem_of_nil | auto].
      * destruct (broadcast_members env (stamp message "figma" now) st' c)
          as (H1 & H2 & H3).
        unfold confined. cbn [fst snd].
        rewrite recipients_app. change (recipients [_; _]) with (@nil Client).
        rewrite app_nil_r, Hs, Hw in *. tauto.
    + rewrite (tokens_post_unread _ _ _ _ E). apply confined_answer.
  - unfold tokens. destruct (decide (method = "GET")); [apply confined_answer|].
    rewrite decide_False by done.
    destruct (decide (method = "OPTIONS")); [apply confined_answer|].
    unfold confined. cbn [fst snd]. split; [by intros ?%elem_of_nil | auto].
Qed.

(** Who can be written to, and who can be in a set, after one event. *)
Lemma step_members ToNumber_positive env now ev sv c :
  let r := step ToNumber_positive env now ev sv in
  confined c (state sv) (connects c ev) (state (fst r), snd r).
Proof.
  cbv zeta.
  destruct ev as [ws|ws parsed|ws|ws|method res|res|res|method parsed];
    cbn [step connects].
  - pose proof (on_connection_confined ToNumber_positive env now ws (state sv) c) as H.
    by destruct (on_connection ToNumber_positive env now ws (state sv)).
  - destruct (decide (ws ∈ listening sv)); [|apply confined_idle].
    pose proof (on_message_confined env now parsed (state sv) c False) as H.
    cbn [handled fst snd state].
    by destruct (on_message env now parsed (state sv)).
  - destruct (decide (ws ∈ listening sv)); [|apply confined_idle].
    apply on_close_confined.
  - destruct (decide (ws ∈ listening sv)); [|apply confined_idle].
    apply on_close_confined.
  - pose proof (stream_confined ToNumber_positive env now method res (state sv) c) as H.
    cbn [handled fst snd state].
    by destruct (stream ToNumber_positive env now method res (state sv)).
  - apply stream_close_confined.
  - apply stream_close_confined.
  - pose proof (tokens_confined env now method parsed (state sv) c False) as H.
    cbn [handled fst snd state].
    by destruct (tokens env now method parsed (state sv)).
Qed.

Lemma run_members ToNumber_positive evs sv c :
  c ∉ sseClients (state sv) → c ∉ wsClients (state sv) → never_connects c evs →
  (c ∉ recipients (snd (run ToNumber_positive evs sv))) ∧
  (c ∉ sseClients (state (fst (run ToNumber_positive evs sv)))) ∧
  (c ∉ wsClients (state (fst (run ToNumber_positive evs sv)))).
Proof.
  revert sv. induction evs as [|[[env now] ev] evs IH]; intros sv Hs Hw Hn.
  - cbn [run fst snd]. split; [apply not_elem_of_nil | done].
  - apply Forall_cons in Hn as [Hev Hn]. cbn [snd] in Hev. cbn [run].
    destruct (step_members ToNumber_positive env now ev sv c) as (H1 & H2 & H3).
    destruct (step ToNumber_positive env now ev sv) as [sv' e]. cbn [fst snd] in *.
    destruct (IH sv') as (I1 & I2 & I3); [tauto|tauto|done|].
    destruct (run ToNumber_positive evs sv') as [sv'' e']. cbn [fst snd] in *.
    split; [|done]. rewrite recipients_app, elem_of_app. tauto.
Qed.

(** The listeners of a push socket are put on it by its connection. *)
Lemma step_listening ToNumber_positive env now ev sv c :
  c ∈ listening (fst (step ToNumber_positive env now ev sv)) →
  c ∈ listening sv ∨ ev = WsConnection c.
Proof.
  destruct ev as [ws|ws parsed|ws|ws|method res|res|res|method parsed];
    cbn [step]; auto.
  - destruct (on_connection ToNumber_positive env now ws (state sv)) as [st' effects].
    cbn [fst listening]. destruct (uncaught effects); [auto|].
    intros [->|]%elem_of_add; auto.
  - destruct (decide (ws ∈ listening sv)); auto.
  - destruct (decide (ws ∈ listening sv)); auto.
  - destruct (decide (ws ∈ listening sv)); auto.
Qed.

Lemma uncaught_true effects : uncaught effects = true ↔ Uncaught ∈ effects.
Proof.
  unfold uncaught. induction effects as [|e effects IH]; cbn [existsb].
  - split; [done | by intros ?%elem_of_nil].
  - rewrite elem_of_cons, orb_true_iff, IH.
    split; (intros [H|H]; [left|by right]); by destruct e.
Qed.

(** X10.  A close or an error of a push socket that has its listeners
    takes it out of [wsClients], and the socket is sent nothing from then
    on; a close or an error of a stream takes it out of [sseClients].  A
    push socket whose connection handler threw has been added and has no
    listeners: its close, error and message events change nothing, so it
    stays in [wsClients].  A client that is in neither set is sent
    nothing, by broadcast or otherwise, and stays out of both for as long
    as it does not connect. *)
Theorem only_connected_clients_are_sent_to ToNumber_positive env now evs sv c :
  let closed := fst (step ToNumber_positive env now (WsClose c) sv) in
  let failed := fst (step ToNumber_positive env now (WsError c) sv) in
  let connected := step ToNumber_positive env now (WsConnection c) sv in
  (c ∈ listening sv →
   (c ∉ wsClients (state closed)) ∧ (c ∉ wsClients (state failed)) ∧
   (c ∉ sseClients (state sv) → never_connects c evs →
    (c ∉ recipients (snd (run ToNumber_positive evs closed))) ∧
    (c ∉ recipients (snd (run ToNumber_positive evs failed))))) ∧
  (c ∉ listening sv →
   closed = sv ∧ failed = sv ∧
   ∀ env' now' parsed,
     step ToNumber_positive env' now' (WsMessage c parsed) sv = (sv, [])) ∧
  (c ∈ wsClients (state (fst connected)) ∧
   (Uncaught ∈ snd connected → listening (fst connected) = listening sv) ∧
   (Uncaught ∉ snd connected → c ∈ listening (fst connected))) ∧
  (c ∉ sseClients (state (fst (step ToNumber_positive env now (StreamClose c) sv)))) ∧
  (c ∉ sseClients (state (fst (step ToNumber_positive env now (StreamError c) sv)))) ∧
  (c ∉ sseClients (state sv) → c ∉ wsClients (state sv) → never_connects c evs →
   (c ∉ recipients (snd (run ToNumber_positive evs sv))) ∧
   (c ∉ sseClients (state (fst (run ToNumber_positive evs sv)))) ∧
   (c ∉ wsClients (state (fst (run ToNumber_positive evs sv)))) ∧
   (c ∈ listening (fst (run ToNumber_positive evs sv)) → c ∈ listening sv)).
Proof.
  cbv zeta. split; [|split; [|split; [|split; [|split]]]].
  - intros Hl. cbn [step]. rewrite !decide_True by done.
    cbn [handled on_close fst snd state wsClients sseClients].
    assert (c ∉ delete c (wsClients (state sv))) as Hd.
    { intros [Hne _]%elem_of_delete. by apply Hne. }
    split; [done|]. split; [done|]. intros Hs Hn.
    split; by apply run_members.
  - intros Hl. cbn [step]. split; [|split]; intros; by rewrite decide_False.
  - cbn [step].
    destruct (on_connection ToNumber_positive env now c (state sv)) as [st' effects] eqn:E.
    cbn [fst snd state listening]. split; [|split].
    + assert (st' = fst (on_connection ToNumber_positive env now c (state sv))) as ->
        by by rewrite E.
      unfold on_connection. destruct (length_positive _ _) as [[|]|];
        cbn [fst wsClients]; apply elem_of_add_here.
    + intros Hu%uncaught_true. by rewrite Hu.
    + intros Hu. destruct (uncaught effects) eqn:U.
      * by apply uncaught_true in U.
      * apply elem_of_add_here.
  - cbn [step handled stream_close fst state sseClients].
    intros [Hne _]%elem_of_delete. by apply Hne.
  - cbn [step handled stream_close fst state sseClients].
    intros [Hne _]%elem_of_delete. by apply Hne.
  - intros Hs Hw Hn.
    destruct (run_members ToNumber_positive evs sv c Hs Hw Hn) as (H1 & H2 & H3).
    split; [done|]. split; [done|]. split; [done|].
    clear Hs Hw H1 H2 H3. revert sv.
    induction evs as [|[[env' now'] ev] evs IH]; intros sv; [done|].
    apply Forall_cons in Hn as [Hev Hn]. cbn [snd] in Hev. cbn [run].
    pose proof (step_listening ToNumber_positive env' now' ev sv c) as Hstep.
    destruct (step ToNumber_positive env' now' ev sv) as [sv' e]. cbn [fst] in Hstep.
    specialize (IH Hn sv').
    destruct (run ToNumber_positive evs sv') as [sv'' e']. cbn [fst] in *.
    intros Hin. destruct (Hstep (IH Hin)) as [? | ->]; [done|].
    by destruct Hev.
Qed.

Lemma only_connected_clients_are_sent_to_witness :
  (1 ∉ recipients
         (snd (run no_coercion [(healthy, clock, WsMessage 2 (Some update_c1))]
                 (fst (step no_coercion healthy clock (WsClose 1) serving))))) ∧
  wsClients
    (state (fst (step no_coercion healthy clock (WsClose 7)
                   (fst (step no_coercion healthy clock (WsConnection 7)
                           holding_unprintable)))))
  = [1; 2; 7].
Proof.
  split.
  - destruct (only_connected_clients_are_sent_to no_coercion healthy clock
                [(healthy, clock, WsMessage 2 (Some update_c1))] serving 1)
      as [H _].
    destruct H as (_ & _ & H).
    { vm_compute. left. }
    destruct H as [H _]; [| |exact H].
    + vm_compute. intros Hin%list_elem_of_singleton. discriminate.
    + repeat constructor. simpl. tauto.
  - destruct (only_connected_clients_are_sent_to no_coercion healthy clock []
                (fst (step no_coercion healthy clock (WsConnection 7) holding_unprintable))
                7) as (_ & H & _).
    destruct H as [H _].
    { change (7 ∉ [1; 2]). rewrite !not_elem_of_cons. repeat split; try lia.
      apply not_elem_of_nil. }
    rewrite H. reflexivity.
Defined.

(** X11.  The acknowledgement of a POST counts the clients that are left
    after its broadcast: the stream clients whose write did not throw and
    the push sockets whose send did not throw.  A POSTed [sync] whose log
    line throws is not acknowledged: it is answered 400 after its tokens
    have been stored, and both sets are as they were. *)
Theorem post_acknowledgement_counts_survivors env now message st st1 :
  store st message = Some st1 →
  let r := tokens env now "POST" (Some message) st in
  let sse := filter (λ c, write_throws env c = false) (sseClients st) in
  let ws := filter (λ c, ¬ (readyState env c = 1%Z ∧ send_throws env c = true))
                   (wsClients st) in
  (log_throws message = false →
   sseClients (fst r) = sse ∧ wsClients (fst r) = ws ∧
   last (snd r)
   = Some (End (Some (JObj [("success", JBool true);
                            ("message", JStr "Token received and broadcasted");
                            ("sseClients", JNum (Z.of_nat (length sse)));
                            ("wsClients", JNum (Z.of_nat (length ws)));
                            ("totalClients",
                             JNum (Z.of_nat (length sse) + Z.of_nat (length ws)))])))) ∧
  (log_throws message = true →
   r = (st1, invalid_json) ∧
   sseClients st1 = sseClients st ∧ wsClients st1 = wsClients st).
Proof.
  intros E. destruct (store_sets _ _ _ E) as [Hs Hw]. cbv zeta.
  rewrite (tokens_post _ _ _ _ _ E). split; intros ->; [|done].
  rewrite broadcastToAll_spec, Hs, Hw.
  cbn [fst snd sseClients wsClients]. split; [done|]. split; [done|].
  by rewrite last_app.
Qed.

Lemma post_acknowledgement_counts_survivors_witness :
  wsClients (fst (tokens one_throws clock "POST" (Some update_c1) two_push_one_stream))
  = [2] ∧
  snd (tokens one_throws clock "POST" (Some sync_unprintable) two_push_one_stream)
  = invalid_json.
Proof.
  destruct (post_acknowledgement_counts_survivors one_throws clock update_c1
              two_push_one_stream two_push_one_stream eq_refl) as [H _].
  destruct (post_acknowledgement_counts_survivors one_throws clock sync_unprintable
              two_push_one_stream _ eq_refl) as [_ H'].
  destruct (H eq_refl) as (_ & H2 & _). destruct (H' eq_refl) as [H3 _].
  split; [exact H2|]. by rewrite H3.
Defined.

End RelayMore.

(** * Further properties of the hook *)
Module UseTokensMore.
Import UseTokens UseTokensOps UseTokensFacts RelayFacts Samples.

Lemma filter_none {A} (P : A → Prop) `{!∀ x, Decision (P x)} (l : list A) :
  Forall (λ x, ¬ P x) l → filter P l = [].
Proof.
  induction 1 as [|x l Hx _ IH]; [done|]. by rewrite filter_cons_False.
Qed.

Lemma isFigmaToken_incoming convertedTokens t :
  t ∈ convertedTokens → isFigmaToken (id <$> convertedTokens) t = true.
Proof.
  intros Hin. unfold isFigmaToken. rewrite !orb_true_iff. right.
  apply bool_decide_eq_true. apply list_elem_of_fmap. by exists t.
Qed.

Lemma merge_idempotent convertedTokens prevTokens :
  merge convertedTokens (merge convertedTokens prevTokens)
  = merge convertedTokens prevTokens.
Proof.
  unfold merge. rewrite filter_app. f_equal.
  rewrite list_filter_filter, (filter_none _ convertedTokens), app_nil_r.
  - apply list_filter_iff. tauto.
  - apply Forall_forall. intros t Ht. by rewrite (isFigmaToken_incoming _ _ Ht).
Qed.

Lemma onmessage_applied now figmaTokens h :
  (1000 ≤ now - handlers_lastSyncTime h)%Z →
  let r := onmessage now (Some {| type := "sync"; payload_tokens := Some figmaTokens |}) h in
  tokens (fst r) = merge (convertDesignToken <$> figmaTokens) (tokens h) ∧
  handlers_lastSyncTime (fst r) = handlers_lastSyncTime h.
Proof.
  intros H. cbv zeta. unfold onmessage. cbn [type payload_tokens].
  destruct (decide ("sync" = "sync")); [|done].
  apply Z.ltb_ge in H. by rewrite H.
Qed.

(** X12.  A [sync] that is applied a second time changes nothing: the
    token list after the two is the list after the first. *)
Theorem sync_twice_is_sync_once now1 now2 figmaTokens h :
  let message := Some {| type := "sync"; payload_tokens := Some figmaTokens |} in
  (1000 ≤ now1 - handlers_lastSyncTime h)%Z →
  (1000 ≤ now2 - handlers_lastSyncTime h)%Z →
  tokens (fst (onmessage now2 message (fst (onmessage now1 message h))))
  = tokens (fst (onmessage now1 message h)).
Proof.
  cbv zeta. intros H1 H2.
  destruct (onmessage_applied now1 figmaTokens h H1) as [T1 L1].
  destruct (onmessage_applied now2 figmaTokens _ ltac:(by rewrite L1)) as [T2 _].
  rewrite T2, T1. apply merge_idempotent.
Qed.

Lemma sync_twice_is_sync_once_witness :
  tokens (fst (onmessage (clock + 500) (Some sync_message)
                 (fst (onmessage clock (Some sync_message) in_use))))
  = tokens (fst (onmessage clock (Some sync_message) in_use)).
Proof.
  apply (sync_twice_is_sync_once clock (clock + 500) [design_c1] in_use);
    vm_compute; discriminate.
Defined.

(** X13.  When the ids of the previous tokens are distinct and the ids of
    the incoming tokens are distinct, the ids after an applied [sync] are
    distinct, and every incoming id is among them. *)
Theorem applied_sync_keeps_ids_distinct now figmaTokens h :
  (1000 ≤ now - handlers_lastSyncTime h)%Z →
  NoDup (id <$> tokens h) →
  NoDup (Shared.id <$> figmaTokens) →
  let h' := fst (onmessage now (Some {| type := "sync";
                                        payload_tokens := Some figmaTokens |}) h) in
  NoDup (id <$> tokens h') ∧
  ∀ d, d ∈ figmaTokens → Shared.id d ∈ id <$> tokens h'.
Proof.
  intros H Hprev Hin. cbv zeta.
  destruct (onmessage_applied now figmaTokens h H) as [-> _].
  unfold merge. rewrite fmap_app.
  assert (id <$> (convertDesignToken <$> figmaTokens) = Shared.id <$> figmaTokens) as Hids.
  { by rewrite <- list_fmap_compose. }
  split.
  - apply NoDup_app. split; [|split].
    + eapply sublist_NoDup; [exact Hprev|]. apply fmap_sublist, sublist_filter.
    + intros i (t & -> & Ht)%list_elem_of_fmap Hi.
      apply list_elem_of_filter in Ht as [Ht _].
      unfold isFigmaToken in Ht. rewrite !orb_false_iff in Ht.
      destruct Ht as [_ Ht]. by apply bool_decide_eq_false in Ht.
    + by rewrite Hids.
  - intros d Hd. apply elem_of_app. right. rewrite Hids.
    apply list_elem_of_fmap. by exists d.
Qed.

Lemma applied_sync_keeps_ids_distinct_witness :
  NoDup (id <$> tokens (fst (onmessage clock (Some sync_message) in_use))).
Proof.
  destruct (applied_sync_keeps_ids_distinct clock [design_c1] in_use) as [H _].
  - vm_compute. discriminate.
  - apply (bool_decide_unpack (NoDup (id <$> tokens in_use))). vm_compute. exact I.
  - apply NoDup_singleton.
  - exact H.
Defined.

(** X14.  [updateToken] never changes an id, the number of tokens or their
    order; it changes nothing when no token carries the id or when the
    updates are empty, and it patches every token that carries the id. *)
Theorem updateToken_keeps_ids i updates prev :
  id <$> updateToken i updates prev = id <$> prev ∧
  (Forall (λ t, id t ≠ i) prev → updateToken i updates prev = prev) ∧
  updateToken i {| new_name := None; new_type := None; new_value := None;
                   new_description := None |} prev = prev ∧
  (∀ t, t ∈ prev → id t = i → patch updates t ∈ updateToken i updates prev).
Proof.
  unfold updateToken. split; [|split; [|split]].
  - rewrite <- list_fmap_compose. apply list_fmap_ext. intros k t _. simpl.
    by destruct (decide (id t = i)).
  - intros H. induction H as [|t l Ht _ IH]; [done|]. csimpl.
    rewrite decide_False by done. by f_equal.
  - induction prev as [|t l IH]; [done|]. csimpl. rewrite IH. f_equal.
    destruct (decide (id t = i)); [|done]. by destruct t.
  - intros t Ht Hi. apply list_elem_of_fmap. exists t. split; [|done].
    by rewrite decide_True.
Qed.

Lemma updateToken_keeps_ids_witness :
  updateToken "nobody" {| new_name := Some "x"; new_type := None; new_value := None;
                          new_description := None |} [a_style; by_hand]
  = [a_style; by_hand].
Proof.
  destruct (updateToken_keeps_ids "nobody"
              {| new_name := Some "x"; new_type := None; new_value := None;
                 new_description := None |} [a_style; by_hand]) as (_ & H & _).
  apply H. repeat constructor; discriminate.
Defined.

Lemma export_lookup_from acc tokens n :
  n ≠ "__proto__" →
  foldl (λ result token, assign (name token) (exported token) result) acc tokens !! n
  = match last (filter (λ t, name t = n) tokens) with
    | Some t => Some (exported t)
    | None => acc !! n
    end.
Proof.
  intros Hn. revert acc. induction tokens as [|t rest IH]; intros acc; [done|].
  cbn [foldl]. rewrite IH. destruct (decide (name t = n)) as [E|E].
  - rewrite filter_cons_True by done.
    destruct (filter (λ t0, name t0 = n) rest) as [|x l].
    2:{ rewrite last_cons_cons. destruct (last (x :: l)) eqn:El; [done|].
        by apply last_None in El. }
    cbn [last]. unfold assign. rewrite decide_False by congruence.
    by rewrite E, lookup_insert_eq.
  - rewrite filter_cons_False by done.
    destruct (last (filter (λ t0, name t0 = n) rest)); [done|].
    unfold assign. destruct (decide (name t = "__proto__")); [done|].
    by rewrite lookup_insert_ne.
Qed.

Lemma export_proto_from acc tokens :
  foldl (λ result token, assign (name token) (exported token) result) acc tokens
    !! "__proto__" = acc !! "__proto__".
Proof.
  revert acc. induction tokens as [|t rest IH]; intros acc; [done|].
  cbn [foldl]. rewrite IH. unfold assign.
  destruct (decide (name t = "__proto__")); [done|]. by rewrite lookup_insert_ne.
Qed.

(** X15.  In the export a name stands for the last token that has it: an
    earlier token of the same name is not exported.  A token named
    [__proto__] is never exported. *)
Theorem exportToDTCG_last_name_wins tokens n :
  exportToDTCG tokens !! "__proto__" = None ∧
  (n ≠ "__proto__" →
   exportToDTCG tokens !! n = exported <$> last (filter (λ t, name t = n) tokens)) ∧
  (n ≠ "__proto__" →
   ∀ before t after, tokens = before ++ t :: after → name t = n →
                     Forall (λ u, name u ≠ n) after →
                     exportToDTCG tokens !! n = Some (exported t)).
Proof.
  unfold exportToDTCG. split; [by rewrite export_proto_from|].
  assert (n ≠ "__proto__" →
          foldl (λ result token, assign (name token) (exported token) result) ∅ tokens !! n
          = exported <$> last (filter (λ t, name t = n) tokens)) as H.
  { intros Hn. rewrite (export_lookup_from _ _ _ Hn).
    by destruct (last _). }
  split; [done|]. intros Hn before t after -> Ht Hafter. rewrite (H Hn).
  rewrite filter_app, filter_cons_True by done.
  rewrite (filter_none (λ u, name u = n) after) by done.
  by rewrite last_snoc.
Qed.

Lemma exportToDTCG_last_name_wins_witness :
  exportToDTCG [a_style; by_hand; {| id := "7a"; name := "Heading";
                                     _type := TokenType "color"; _value := JStr "#fff";
                                     _description := Some EmptyString |}] !! "Heading"
  = Some {| exported_type := TokenType "color"; exported_value := JStr "#fff";
            exported_description := None |}.
Proof.
  destruct (exportToDTCG_last_name_wins
              [a_style; by_hand; {| id := "7a"; name := "Heading";
                                    _type := TokenType "color"; _value := JStr "#fff";
                                    _description := Some EmptyString |}] "Heading")
    as (_ & _ & H).
  apply (H ltac:(discriminate) [a_style; by_hand] _ [] eq_refl eq_refl). constructor.
Defined.

Lemma export_dom_from acc tokens :
  dom (foldl (λ result token, assign (name token) (exported token) result) acc tokens)
  = dom acc ∪ list_to_set (filter (λ n, n ≠ "__proto__") (name <$> tokens)).
Proof.
  revert acc. induction tokens as [|t rest IH]; intros acc.
  - cbn. by rewrite (right_id_L ∅ (∪)).
  - cbn [foldl]. rewrite IH. csimpl. unfold assign.
    destruct (decide (name t = "__proto__")) as [E|E].
    + by rewrite filter_cons_False by (intros Hn; by apply Hn).
    + rewrite filter_cons_True by done. rewrite dom_insert_L, list_to_set_cons.
      by rewrite (comm_L (∪) {[name t]} (dom acc)), (assoc_L (∪)).
Qed.

Lemma export_size_from acc tokens :
  size (foldl (λ result token, assign (name token) (exported token) result) acc tokens)
  ≤ size acc + length tokens.
Proof.
  revert acc. induction tokens as [|t rest IH]; intros acc; [simpl; lia|].
  cbn [foldl length]. etrans; [apply IH|]. unfold assign.
  destruct (decide (name t = "__proto__")); [lia|].
  rewrite map_size_insert. destruct (acc !! name t); simpl; lia.
Qed.

(** X16.  The names in the export are the names of the tokens, [__proto__]
    left out; the export has at most as many entries as there are tokens,
    and exactly as many when the names are distinct and none is
    [__proto__]. *)
Theorem exportToDTCG_names tokens :
  dom (exportToDTCG tokens)
  = list_to_set (filter (λ n, n ≠ "__proto__") (name <$> tokens)) ∧
  size (exportToDTCG tokens) ≤ length tokens ∧
  (NoDup (name <$> tokens) → "__proto__" ∉ name <$> tokens →
   size (exportToDTCG tokens) = length tokens).
Proof.
  unfold exportToDTCG.
  assert (dom (foldl (λ result token, assign (name token) (exported token) result)
                     ∅ tokens)
          = list_to_set (filter (λ n, n ≠ "__proto__") (name <$> tokens))) as Hdom.
  { by rewrite export_dom_from, dom_empty_L, (left_id_L ∅ (∪)). }
  split; [done|]. split.
  - pose proof (export_size_from ∅ tokens) as H. by rewrite map_size_empty in H.
  - intros Hnd Hp. rewrite <- size_dom, Hdom.
    rewrite filter_all.
    + by rewrite size_list_to_set, length_fmap.
    + apply Forall_forall. intros n Hn ->. by apply Hp.
Qed.

Lemma exportToDTCG_names_witness :
  size (exportToDTCG [a_style; by_hand]) = 2.
Proof.
  destruct (exportToDTCG_names [a_style; by_hand]) as (_ & _ & H).
  apply H.
  - apply (bool_decide_unpack (NoDup (name <$> [a_style; by_hand]))). vm_compute. exact I.
  - intros Hin. repeat (apply elem_of_cons in Hin as [Hin|Hin]; [discriminate|]).
    by apply elem_of_nil in Hin.
Defined.

End UseTokensMore.

(** * Properties of the shared package's server and client *)
Module WebSocketServerMore.
Import Relay WebSocketServer Samples.

Lemma broadcast_prefix env message sender cs :
  recipients (fst (broadcast env message sender cs))
  `prefix_of` filter (λ c, Some c ≠ sender ∧ readyState env c = 1%Z) cs.
Proof.
  induction cs as [|c cs IH]; [done|]. cbn [broadcast].
  destruct (bool_decide (Some c ≠ sender)) eqn:B;
    [destruct (readyState env c =? 1)%Z eqn:R|]; cbn [andb].
  - apply bool_decide_eq_true in B. apply Z.eqb_eq in R.
    rewrite filter_cons_True by done.
    destruct (send_throws env c).
    + cbn. by apply prefix_cons, prefix_nil.
    + destruct (broadcast env message sender cs) as [effects completed].
      cbn in *. by apply prefix_cons.
  - apply Z.eqb_neq in R. by rewrite filter_cons_False by (by intros [_ ?]).
  - apply bool_decide_eq_false in B. by rewrite filter_cons_False by (by intros [? _]).
Qed.

Lemma broadcast_sent env message sender cs :
  Forall (λ m, m = message) (sent (fst (broadcast env message sender cs))).
Proof.
  induction cs as [|c cs IH]; [constructor|]. cbn [broadcast].
  destruct (bool_decide (Some c ≠ sender) && (readyState env c =? 1)%Z); [|done].
  destruct (send_throws env c); [by repeat constructor|].
  destruct (broadcast env message sender cs) as [effects completed].
  cbn in *. by constructor.
Qed.

Lemma broadcast_all env message sender cs :
  Forall (λ c, Some c ≠ sender → readyState env c = 1%Z → send_throws env c = false) cs →
  broadcast env message sender cs
  = ((λ c, Send c message) <$> filter (λ c, Some c ≠ sender ∧ readyState env c = 1%Z) cs,
     true).
Proof.
  induction 1 as [|c cs Hc _ IH]; [done|]. cbn [broadcast].
  destruct (bool_decide (Some c ≠ sender)) eqn:B;
    [destruct (readyState env c =? 1)%Z eqn:R|]; cbn [andb].
  - apply bool_decide_eq_true in B. apply Z.eqb_eq in R.
    rewrite filter_cons_True, (Hc B R), IH by done. done.
  - apply Z.eqb_neq in R. by rewrite filter_cons_False by (by intros [_ ?]).
  - apply bool_decide_eq_false in B. by rewrite filter_cons_False by (by intros [? _]).
Qed.

(** X17.  [broadcast(message, sender)] sends the message, unchanged, only
    to open sockets other than the sender, in the order of the set; when
    no send throws it reaches all of them.  A sender that is in the set
    makes the number of sends smaller than the number of clients. *)
Theorem broadcast_spares_the_sender env message sender cs :
  let r := broadcast env message sender cs in
  let others := filter (λ c, Some c ≠ sender ∧ readyState env c = 1%Z) cs in
  recipients (fst r) `prefix_of` others ∧
  Forall (λ c, Some c ≠ sender) (recipients (fst r)) ∧
  Forall (λ m, m = message) (sent (fst r)) ∧
  (Forall (λ c, send_throws env c = false) cs →
   recipients (fst r) = others ∧ snd r = true) ∧
  (∀ ws, sender = Some ws → ws ∈ cs → length (recipients (fst r)) < length cs).
Proof.
  cbv zeta. pose proof (broadcast_prefix env message sender cs) as Hp.
  split; [done|]. split; [|split; [apply broadcast_sent|split]].
  - apply Forall_forall. intros c Hc.
    assert (c ∈ filter (λ c, Some c ≠ sender ∧ readyState env c = 1%Z) cs) as Hin.
    { destruct Hp as [k ->]. apply elem_of_app. by left. }
    by apply list_elem_of_filter in Hin as [[? _] _].
  - intros Hn. rewrite broadcast_all.
    + cbn [fst snd]. split; [|done]. unfold recipients.
      rewrite <- list_fmap_compose. apply list_fmap_id.
    + eapply Forall_impl; [exact Hn|]. auto.
  - intros ws -> Hin. eapply Nat.le_lt_trans; [by apply prefix_length|].
    apply (length_filter_lt _ _ ws Hin). by intros [? _].
Qed.

Lemma broadcast_spares_the_sender_witness :
  recipients (fst (broadcast healthy update_c1 (Some 1) [1; 2; 3])) = [2; 3].
Proof.
  destruct (broadcast_spares_the_sender healthy update_c1 (Some 1) [1; 2; 3])
    as (_ & _ & _ & H & _).
  destruct H as [H _]; [by repeat constructor|]. exact H.
Defined.

(** X18.  A send that throws ends the broadcast: the clients after the
    throwing one in the set are sent nothing, and the set is left as it
    was, the throwing client still in it. *)
Theorem broadcast_stops_at_a_throwing_send env message ws before c after s :
  clients s = before ++ c :: after →
  c ≠ ws → readyState env c = 1%Z → send_throws env c = true →
  Forall (λ x, send_throws env x = false) before →
  let r := step env (Message ws (Some message)) s in
  recipients (snd r)
  = filter (λ x, Some x ≠ Some ws ∧ readyState env x = 1%Z) before ++ [c] ∧
  clients (fst r) = clients s ∧
  (∀ x, x ∈ after → x ∉ before → x ≠ c → x ∉ recipients (snd r)).
Proof.
  intros Hs Hc Hr Ht Hb. cbv zeta. cbn [step fst snd]. rewrite Hs.
  assert (∀ l, fst (broadcast env message (Some ws) (l ++ c :: after))
               = fst (broadcast env message (Some ws) l) ++ [Send c message]
               ∨ ∃ x, x ∈ l ∧ send_throws env x = true) as Hsplit.
  { induction l as [|x l IH]; cbn [broadcast app].
    - left. rewrite bool_decide_eq_true_2 by congruence.
      apply Z.eqb_eq in Hr. rewrite Hr, Ht. done.
    - destruct (bool_decide (Some x ≠ Some ws) && (readyState env x =? 1)%Z).
      + destruct (send_throws env x) eqn:Hx.
        * right. exists x. split; [by left|done].
        * destruct IH as [IH | (y & Hy & Hty)]; [|right; exists y; split; [by right|done]].
          left. destruct (broadcast env message (Some ws) (l ++ c :: after)).
          destruct (broadcast env message (Some ws) l). cbn in *. by rewrite IH.
      + destruct IH as [IH | (y & Hy & Hty)]; [by left|].
        right. exists y. split; [by right|done]. }
  assert (recipients (fst (broadcast env message (Some ws) (before ++ c :: after)))
          = filter (λ x, Some x ≠ Some ws ∧ readyState env x = 1%Z) before ++ [c]) as Hrec.
  { destruct (Hsplit before) as [-> | (x & Hx & Hxt)].
    - unfold recipients. rewrite fmap_app. f_equal.
      rewrite broadcast_all.
      + cbn [fst]. rewrite <- list_fmap_compose. apply list_fmap_id.
      + eapply Forall_impl; [exact Hb|]. auto.
    - rewrite Forall_forall in Hb. rewrite (Hb x Hx) in Hxt. discriminate. }
  split; [done|]. split; [done|].
  intros x Ha Hnb Hxc. rewrite Hrec, elem_of_app, list_elem_of_filter,
    list_elem_of_singleton. tauto.
Qed.

Lemma broadcast_stops_at_a_throwing_send_witness :
  recipients (snd (step one_throws (Message 3 (Some update_c1)) {| clients := [1; 2; 3] |}))
  = [1].
Proof.
  destruct (broadcast_stops_at_a_throwing_send one_throws update_c1 3 [] 1 [2; 3]
              {| clients := [1; 2; 3] |} eq_refl) as (H & _); try done.
Defined.

End WebSocketServerMore.

Module WebSocketSessionMore.
Import WebSocketClient WebSocketSession Samples.

Lemma bounded_fresh : bounded fresh.
Proof. split; [constructor | done]. Qed.

Lemma bounded_step w ev s : bounded s → bounded (fst (step w ev s)).
Proof.
  intros Hb. pose proof Hb as [Hl Hw].
  assert (bounded (fst (connect s))) as Hc.
  { split; cbn.
    - eapply Forall_impl; [exact Hl|]. intros l ?. cbn in *. lia.
    - intros socket [= <-]. lia. }
  destruct ev as [|callback|message| |socket|socket|socket|socket parsed|];
    cbn [step fst]; try exact Hc; try exact Hb.
  - unfold onMessage. destruct (ws s) as [socket|] eqn:E; [|exact Hb].
    split; cbn.
    + apply Forall_app. split; [done|]. constructor; [|constructor]. by apply Hw.
    + exact Hw.
  - unfold disconnect. destruct (ws s) as [socket|] eqn:E; [|exact Hb]. by split.
Qed.

Lemma bounded_run w evs s : bounded s → bounded (run w evs s).
Proof.
  revert s. induction evs as [|ev evs IH]; intros s H; [done|].
  cbn [run]. by apply IH, bounded_step.
Qed.

(** X19.  A callback given to [onMessage] listens on the socket of that
    moment.  After the client connects again, a message on the new socket
    calls none of the callbacks registered before; one registered after
    the new connection is called. *)
Theorem callbacks_do_not_follow_a_reconnect w evs message callback :
  let s := run w evs fresh in
  let s' := fst (step w TimerFired s) in
  ws s' = Some (created s) ∧
  deliver (created s) (Some message) s' = [] ∧
  deliver (created s) (Some message) (onMessage callback s') = [Callback callback message].
Proof.
  cbv zeta. destruct (bounded_run w evs fresh bounded_fresh) as [Hl _].
  set (s := run w evs fresh) in *. cbn [step connect fst ws].
  assert (filter (λ l, fst l = created s) (listeners s) = []) as Hnone.
  { apply UseTokensMore.filter_none. eapply Forall_impl; [exact Hl|].
    intros l ?. cbn in *. lia. }
  split; [done|]. split.
  - unfold deliver. cbn [listeners]. by rewrite Hnone.
  - unfold deliver, onMessage. cbn [ws listeners].
    rewrite filter_app, Hnone. rewrite filter_cons_True by done. done.
Qed.

(** X20.  [disconnect()] closes the socket and forgets it, and [send] then
    sends nothing; but the close event of that socket still runs
    [attemptReconnect]: while the attempts are below the maximum the timer
    is set, and when it fires the client has a socket again. *)
Theorem disconnect_does_not_stop_reconnection w message s socket :
  ws s = Some socket →
  reconnectAttempts (client s) < maxReconnectAttempts (client s) →
  let d := step w Disconnect s in
  let c := step w (SocketClosed socket) (fst d) in
  let t := step w TimerFired (fst c) in
  snd d = [SocketClose socket] ∧
  ws (fst d) = None ∧
  send w message (fst d) = [] ∧
  snd c = [Of (SetTimeout_connect (reconnectInterval (client s)))] ∧
  reconnectAttempts (client (fst c)) = S (reconnectAttempts (client s)) ∧
  ws (fst t) = Some (created s).
Proof.
  intros Hws Hlt. cbv zeta. cbn [step]. unfold disconnect. rewrite Hws.
  cbn [fst snd ws client]. unfold send, lift. cbn [ws fst snd client].
  unfold WebSocketClient.step, attemptReconnect.
  apply Nat.ltb_lt in Hlt. rewrite Hlt. done.
Qed.

Lemma disconnect_does_not_stop_reconnection_witness :
  snd (step {| readyState := λ _, 1%Z |} (SocketClosed 0)
         (fst (step {| readyState := λ _, 1%Z |} Disconnect
                 (fst (step {| readyState := λ _, 1%Z |} Connect fresh)))))
  = [Of (SetTimeout_connect 5000)].
Proof.
  destruct (disconnect_does_not_stop_reconnection {| readyState := λ _, 1%Z |} update_c1
              (fst (step {| readyState := λ _, 1%Z |} Connect fresh)) 0 eq_refl)
    as (_ & _ & _ & H & _).
  - simpl. lia.
  - exact H.
Defined.

End WebSocketSessionMore.

(** * Properties of the plugin's client *)
Module HybridClientMore.
Import Js HybridClient HybridClientFacts HybridSend RelayFacts Samples.

Lemma forEach_no_timer throws message handlers :
  Forall (λ e, ∀ delay, e ≠ SetTimeout_pollForUpdates delay)
         (fst (forEach throws message handlers)).
Proof.
  induction handlers as [|h handlers IH]; cbn [forEach]; [constructor|].
  destruct (throws h); [by repeat constructor|].
  destruct (forEach throws message handlers) as [effects completed].
  cbn in *. by constructor.
Qed.

Lemma poll_body_no_timer ToNumber_positive throws now fetched c :
  Forall (λ e, ∀ delay, e ≠ SetTimeout_pollForUpdates delay)
         (poll_body ToNumber_positive throws now fetched c).
Proof.
  unfold poll_body. destruct fetched as [|[|] [data|]]; try constructor.
  destruct (get (J data) "tokens") as [tokens|]; [|constructor].
  destruct (truthy tokens); [|constructor].
  destruct (gt_zero _ _) as [[|]|]; try constructor.
  pose proof (forEach_no_timer throws
                (JObj [("type", JStr "sync");
                       ("payload",
                        JObj [("tokens", match tokens with J t => t | Undefined => JNull end)])])
                (seq 0 (messageHandlers c))) as H.
  destruct (forEach throws _ (seq 0 (messageHandlers c))) as [effects completed].
  cbn in H. destruct completed; [|done].
  apply Forall_app. split; [done|]. by repeat constructor.
Qed.

Lemma forEach_stops throws message before h after :
  Forall (λ x, throws x = false) before → throws h = true →
  forEach throws message (before ++ h :: after)
  = ((λ x, Handle x message) <$> (before ++ [h]), false).
Proof.
  intros Hb Hh. induction Hb as [|x before Hx _ IH]; cbn [forEach app].
  - by rewrite Hh.
  - by rewrite Hx, IH.
Qed.

(** X21.  Every tick of a connected client sets the next poll, once, 3000
    ms ahead and after everything else, whatever the fetch gave and
    whichever handler threw; a tick of a disconnected client does nothing
    and sets no timer, which ends the polling. *)
Theorem poll_always_reschedules ToNumber_positive throws now fetched c :
  let effects := pollForUpdates ToNumber_positive throws now fetched c in
  (isConnected c = true →
   last effects = Some (SetTimeout_pollForUpdates 3000) ∧
   ∃ body, effects = body ++ [SetTimeout_pollForUpdates 3000] ∧
           Forall (λ e, ∀ delay, e ≠ SetTimeout_pollForUpdates delay) body) ∧
  (isConnected c = false → effects = []).
Proof.
  cbv zeta. unfold pollForUpdates. split; intros ->; [|done].
  split; [apply last_snoc|]. eexists. split; [reflexivity|].
  apply poll_body_no_timer.
Qed.

Lemma poll_always_reschedules_witness :
  last (pollForUpdates no_coercion (λ _, true) clock Rejected
          {| messageHandlers := 2; isConnected := true |})
  = Some (SetTimeout_pollForUpdates 3000).
Proof.
  destruct (poll_always_reschedules no_coercion (λ _, true) clock Rejected
              {| messageHandlers := 2; isConnected := true |}) as [H _].
  destruct H as [H _]; [reflexivity|]. exact H.
Defined.

(** X22.  When a handler throws on a polled snapshot, the handlers
    registered after it are not called and the UI is not told of the
    update; the handlers before it have been called, and the next poll is
    set all the same. *)
Theorem throwing_handler_cuts_the_dispatch ToNumber_positive throws now data items c h :
  isConnected c = true →
  get (J data) "tokens" = Some (J (JArr items)) → items ≠ [] →
  h < messageHandlers c → throws h = true →
  (∀ x, x < h → throws x = false) →
  let message := JObj [("type", JStr "sync"); ("payload", JObj [("tokens", JArr items)])] in
  pollForUpdates ToNumber_positive throws now (Response true (Some data)) c
  = ((λ x, Handle x message) <$> seq 0 (S h)) ++ [SetTimeout_pollForUpdates 3000].
Proof.
  intros Hc Hg Hi Hlt Hh Hbefore. cbv zeta. unfold pollForUpdates, poll_body.
  rewrite Hc, Hg. cbn [truthy].
  assert (gt_zero ToNumber_positive (get_opt (J (JArr items)) "length") = Some true) as ->.
  { by destruct items. }
  assert (seq 0 (messageHandlers c)
          = seq 0 h ++ h :: seq (S h) (messageHandlers c - S h)) as ->.
  { replace (messageHandlers c) with (h + S (messageHandlers c - S h)) at 1 by lia.
    by rewrite seq_app. }
  rewrite forEach_stops; [|apply Forall_forall; intros x Hx%elem_of_seq; apply Hbefore; lia|done].
  replace (seq 0 (S h)) with (seq 0 h ++ [h]) by (by rewrite seq_S).
  done.
Qed.

Lemma throwing_handler_cuts_the_dispatch_witness :
  pollForUpdates no_coercion (λ x, bool_decide (x = 1)) clock
    (Response true (Some (JObj [("tokens", JArr [token_c1])])))
    {| messageHandlers := 3; isConnected := true |}
  = [Handle 0 (JObj [("type", JStr "sync"); ("payload", JObj [("tokens", JArr [token_c1])])]);
     Handle 1 (JObj [("type", JStr "sync"); ("payload", JObj [("tokens", JArr [token_c1])])]);
     SetTimeout_pollForUpdates 3000].
Proof.
  apply (throwing_handler_cuts_the_dispatch no_coercion (λ x, bool_decide (x = 1)) clock
           (JObj [("tokens", JArr [token_c1])]) [token_c1]
           {| messageHandlers := 3; isConnected := true |} 1);
    try reflexivity; try discriminate; simpl; try lia.
  intros x Hx. apply bool_decide_eq_false. lia.
Defined.



End HybridClientMore.
